(** * Lookback option pricing by per-day vanilla options

    A shallow embedding of the pricing-and-aggregation code of the
    notebooks [Quantum_Lookback_Call], [Quantum_Lookback_Put] and
    [Classical_Lookback].

    Numbers.  The notebooks compute with numpy [float64].  Here a float is
    a real number: [np.log], [np.exp], [np.sqrt] and [np.maximum] are
    [ln], [exp], [sqrt] and [Rmax], and rounding, overflow and NaN are
    outside the model.  Statements are restricted to the domain on which
    the two agree up to rounding (positive spot price, non-negative time),
    since [ln] and [sqrt] of the Standard Library are total while numpy
    yields [nan] or [-inf] outside it.

    Library calls.  [LogNormalDistribution] and [LinearAmplitudeFunction]
    are the records of the arguments they are constructed from, and their
    constructors validate these arguments as Qiskit does, raising
    [ValueError].  The draws of [np.random.normal] are read from an
    explicit model of numpy's process-wide generator.  The amplitude
    estimation of Qiskit is an unknown of the development: only what the
    notebooks themselves compute around it is defined here. *)

From Stdlib Require Import Reals Lra Lia List Bool Arith.
Import ListNotations.

Local Open Scope R_scope.

(** ** Outcome of a Python call *)

Inductive error : Type :=
  | DegenerateDistributionError
  | ZeroDivisionError
  | ValueError
  | IndexError.

Inductive outcome (A : Type) : Type :=
  | Returned (v : A)
  | Raised (e : error).

Arguments Returned {A} v.
Arguments Raised {A} e.

(** The largest finite [float64].  The power [x ** 2] of a Python [float]
    raises [OverflowError] when its result lies beyond it; statements on
    what a call raises are made for arguments within this range. *)
Definition float_max : R := (2 - / 2 ^ 52) * 2 ^ 1023.

(** ** The uncertainty model ([get_uncertainty_model]) *)

Module Uncertainty.

(** The object built by [LogNormalDistribution(n, mu=, sigma=, bounds=)]. *)
Record LogNormalDistribution : Type := mkLogNormal {
  num_qubits : nat;
  mu : R;
  sigma : R;
  bounds : R * R
}.

(** The local variables of one call of [get_uncertainty_model]. *)
Record locals : Type := mkLocals {
  l_mu : R;
  l_sigma : R;
  l_mean : R;
  l_variance : R;
  l_stddev : R;
  l_low : R;
  l_high : R
}.

(** The body of [get_uncertainty_model] up to the constructor call, line
    by line. *)
Definition body (t S vol r : R) : locals :=
  let mu := (r - 0.5 * vol ^ 2) * t + ln S in
  let sigma := vol * sqrt t in
  let mean := exp (mu + sigma ^ 2 / 2) in
  let variance := (exp (sigma ^ 2) - 1) * exp (2 * mu + sigma ^ 2) in
  let stddev := sqrt variance in
  let low := Rmax 0 (mean - 3 * stddev) in
  let high := mean + 3 * stddev in
  mkLocals mu sigma mean variance stddev low high.

(** The constructor [LogNormalDistribution(n, mu=, sigma=, bounds=)].  It
    validates the bounds first: unless [bounds[1] - bounds[0] > 0], a
    non-empty interval, it raises [ValueError]. *)
Definition LogNormalDistribution_init (n : nat) (mu sigma : R)
    (bounds : R * R) : outcome LogNormalDistribution :=
  if Rlt_dec 0 (snd bounds - fst bounds)
  then Returned (mkLogNormal n mu sigma bounds)
  else Raised ValueError.

(** [get_uncertainty_model(t, num_uncertainty_qubits, S, vol, r)]: the
    distribution object receives [sigma**2], and the bounds are returned
    next to it.  An exception of the constructor leaves the function. *)
Definition get_uncertainty_model (t : R) (num_uncertainty_qubits : nat)
    (S vol r : R) : outcome (LogNormalDistribution * R * R) :=
  let v := body t S vol r in
  match
    LogNormalDistribution_init num_uncertainty_qubits (l_mu v)
      (l_sigma v ^ 2) (l_low v, l_high v)
  with
  | Raised e => Raised e
  | Returned uncertainty_model =>
      Returned (uncertainty_model, l_low v, l_high v)
  end.

(** The triple a call hands back when the constructor accepts the
    bounds. *)
Definition returned_model (t : R) (n : nat) (S vol r : R)
    : LogNormalDistribution * R * R :=
  let v := body t S vol r in
  (mkLogNormal n (l_mu v) (l_sigma v ^ 2) (l_low v, l_high v),
   l_low v, l_high v).

(** The defaults of the signature: three qubits, [S=2.0], [vol=0.4],
    [r=0.0]. *)
Definition default_qubits : nat := 3.
Definition default_S : R := 2.0.
Definition default_vol : R := 0.4.
Definition default_r : R := 0.0.


(** The drift the specification writes, with a dividend yield [q]. *)
Definition spec_mu (tau S vol r q : R) : R :=
  (r - q - vol ^ 2 / 2) * tau + ln S.

End Uncertainty.

(** ** The Monte Carlo pricer ([get_price_call], [get_price_put]) *)

Module Sampling.

(** numpy's process-wide generator, seen through what it will deliver: the
    state is the sequence of standard normal draws still to come. *)
Definition rng : Type := nat -> R.

(** [np.random.normal(size=(steps, N))] fills the array row by row from
    the generator and leaves it advanced by [steps * N] draws. *)
Definition np_random_normal (steps N : nat) (g : rng)
    : list (list R) * rng :=
  (map (fun i => map (fun j => g (i * N + j)%nat) (seq 0 N)) (seq 0 steps),
   fun k => g (steps * N + k)%nat).

(** Sum of two rows of one shape. *)
Definition row_add (u v : list R) : list R :=
  map (fun p => fst p + snd p) (combine u v).

(** [np.cumsum(a, axis=0)]: running sums down the rows. *)
Fixpoint cumsum_from (acc : list R) (rows : list (list R))
    : list (list R) :=
  match rows with
  | [] => []
  | row :: rest =>
      let acc' := row_add acc row in acc' :: cumsum_from acc' rest
  end.

Definition np_cumsum_axis0 (rows : list (list R)) : list (list R) :=
  match rows with
  | [] => []
  | row :: rest => row :: cumsum_from row rest
  end.

Definition np_sum (l : list R) : R := fold_right Rplus 0 l.

(** [np.mean] of a one-dimensional array. *)
Definition np_mean (l : list R) : R := np_sum l / INR (length l).

(** The array [paths] of both pricers, from the array of draws. *)
Definition paths (T S r q sigma : R) (steps : nat) (Z : list (list R))
    : list (list R) :=
  let dt := T / INR steps in
  let ST :=
    map (map (fun x => ln S + x))
      (np_cumsum_axis0
         (map (map (fun z => (r - q - sigma ^ 2 / 2) * dt
                             + sigma * sqrt dt * z)) Z)) in
  map (map exp) ST.

(** [paths[-1]]. *)
Definition last_row (a : list (list R)) : list R := last a [].

Definition call_price (T S K r q sigma : R) (steps : nat)
    (Z : list (list R)) : R :=
  let payoffs :=
    map (fun p => Rmax (p - K) 0) (last_row (paths T S r q sigma steps Z)) in
  np_mean payoffs * exp (- r * T).

Definition put_price (T S K r q sigma : R) (steps : nat)
    (Z : list (list R)) : R :=
  let payoffs :=
    map (fun p => Rmax (K - p) 0) (last_row (paths T S r q sigma steps Z)) in
  np_mean payoffs * exp (- r * T).

(** [get_price_call(T, S, K, r, q, sigma, steps, N)] run in generator
    state [g]: the price and the state left behind.  [T / steps] divides a
    Python float by an [int] and raises on [steps = 0], before anything is
    drawn. *)
Definition get_price_call (T S K r q sigma : R) (steps N : nat) (g : rng)
    : outcome R * rng :=
  match steps with
  | O => (Raised ZeroDivisionError, g)
  | _ =>
      let (Z, g') := np_random_normal steps N g in
      (Returned (call_price T S K r q sigma steps Z), g')
  end.

Definition get_price_put (T S K r q sigma : R) (steps N : nat) (g : rng)
    : outcome R * rng :=
  match steps with
  | O => (Raised ZeroDivisionError, g)
  | _ =>
      let (Z, g') := np_random_normal steps N g in
      (Returned (put_price T S K r q sigma steps Z), g')
  end.

(** Defaults of the two signatures. *)
Definition default_S : R := 2.0.
Definition default_K_call : R := 1.896.
Definition default_K_put : R := 2.1.
Definition default_r : R := 0.0.
Definition default_q : R := 0.0.
Definition default_sigma : R := 0.4.
Definition default_steps : nat := 100.
Definition default_N : nat := (100 * 1000)%nat.

(** Two calls one after the other in the same process, same arguments. *)
Definition call_twice (T S K r q sigma : R) (steps N : nat) (g : rng)
    : outcome R * outcome R :=
  let (p1, g1) := get_price_call T S K r q sigma steps N g in
  let (p2, _) := get_price_call T S K r q sigma steps N g1 in
  (p1, p2).

(** What the draws of one call amount to at the horizon: for path [j],
    the sum of its [steps] draws, and that sum scaled to unit variance. *)
Definition column_sum (steps N : nat) (g : rng) (j : nat) : R :=
  np_sum (map (fun i => g (i * N + j)%nat) (seq 0 steps)).

Definition terminal_normal (steps N : nat) (g : rng) (j : nat) : R :=
  column_sum steps N g j / sqrt (INR steps).

(** Log-normal parameters of the price at horizon [T] under the drift and
    volatility of the pricer. *)
Definition gbm_mu (T S r q sigma : R) : R :=
  (r - q - sigma ^ 2 / 2) * T + ln S.

Definition gbm_sigma (T sigma : R) : R := sigma * sqrt T.

(** The price of path [j] at the horizon, as the pricer computes it. *)
Definition terminal_price (T S r q sigma : R) (steps N : nat) (g : rng)
    (j : nat) : R :=
  exp (ln S + np_sum (map (fun i => (r - q - sigma ^ 2 / 2) * (T / INR steps)
                                    + sigma * sqrt (T / INR steps)
                                      * g (i * N + j)%nat)
                          (seq 0 steps))).

(** The payoffs of the [N] paths. *)
Definition call_payoffs (T S K r q sigma : R) (steps N : nat) (g : rng)
    : list R :=
  map (fun j => Rmax (terminal_price T S r q sigma steps N g j - K) 0)
      (seq 0 N).

Definition put_payoffs (T S K r q sigma : R) (steps N : nat) (g : rng)
    : list R :=
  map (fun j => Rmax (K - terminal_price T S r q sigma steps N g j) 0)
      (seq 0 N).

End Sampling.

(** ** The amplitude-estimation helper ([get_ae_results], put notebook) *)

Module Estimation.
Import Uncertainty.

(** The arguments [LinearAmplitudeFunction] is constructed from. *)
Record LinearAmplitudeFunction : Type := mkObjective {
  num_state_qubits : nat;
  slopes : list R;
  offsets : list R;
  domain : R * R;
  image : R * R;
  breakpoints : list R;
  rescaling_factor : R
}.

(** [np.all(np.diff(breakpoints) > 0)]: sorted, with no value twice. *)
Fixpoint strictly_increasing (l : list R) : bool :=
  match l with
  | x :: rest =>
      match rest with
      | y :: _ => (if Rlt_dec x y then true else false)
                  && strictly_increasing rest
      | [] => true
      end
  | [] => true
  end.

(** [breakpoints[0] < domain[0] or breakpoints[-1] > domain[1]], for
    breakpoints that start with [first]. *)
Definition outside_domain (first : R) (bps : list R) (domain : R * R)
    : bool :=
  (if Rlt_dec first (fst domain) then true else false)
  || (if Rlt_dec (snd domain) (last bps first) then true else false).

(** The constructor [LinearAmplitudeFunction(n, slopes, offsets, domain=,
    image=, breakpoints=, rescaling_factor=)] on a list of breakpoints
    whose first one is the lower end of the domain, as in the notebook,
    so that the constructor prepends nothing.  It validates the
    breakpoints and raises [ValueError] unless they are sorted without
    repetition and lie inside the domain.  Reading [breakpoints[0]] of an
    empty list raises [IndexError]. *)
Definition LinearAmplitudeFunction_init (n : nat) (slopes offsets : list R)
    (domain image : R * R) (breakpoints : list R) (rescaling : R)
    : outcome LinearAmplitudeFunction :=
  match breakpoints with
  | [] => Raised IndexError
  | first :: _ =>
      if negb (strictly_increasing breakpoints) then Raised ValueError
      else if outside_domain first breakpoints domain then Raised ValueError
      else Returned (mkObjective n slopes offsets domain image breakpoints
                       rescaling)
  end.

(** The objective set up in the first lines of [get_ae_results]. *)
Definition european_put_objective (low high : R)
    (num_uncertainty_qubits : nat) (strike_price rescaling : R)
    : outcome LinearAmplitudeFunction :=
  let breakpoints := [low; strike_price] in
  let slopes := [-1; 0] in
  let offsets := [strike_price - low; 0] in
  let f_min := 0 in
  let f_max := strike_price - low in
  LinearAmplitudeFunction_init num_uncertainty_qubits slopes offsets
    (low, high) (f_min, f_max) breakpoints rescaling.

(** The function the breakpoints, slopes and offsets of a constructed
    objective stand for, as Qiskit documents its piecewise linear
    functions: [a_j * (x - x_j) + b_j] from breakpoint [x_j] on, until the
    next breakpoint is reached. *)
Fixpoint piecewise_from (cur : R) (bps sl off : list R) (x : R) : R :=
  match bps, sl, off with
  | bp :: bps', a :: sl', b :: off' =>
      if Rle_dec bp x
      then piecewise_from (a * (x - bp) + b) bps' sl' off' x
      else piecewise_from cur bps' sl' off' x
  | _, _, _ => cur
  end.

Definition objective_value (f : LinearAmplitudeFunction) (x : R) : R :=
  piecewise_from 0 (breakpoints f) (slopes f) (offsets f) x.

(** [EstimationProblem(state_preparation=objective.compose(model),
    objective_qubits=[n], post_processing=objective.post_processing)]. *)
Record EstimationProblem : Type := mkProblem {
  state_preparation : LinearAmplitudeFunction * LogNormalDistribution;
  objective_qubits : list nat
}.

(** The two fields of the estimation result the helper reads. *)
Record AEResult : Type := mkAEResult {
  estimation_processed : R;
  confidence_interval_processed : R * R
}.

Section Backend.

(** [IterativeAmplitudeEstimation(epsilon_target, alpha,
    Sampler(shots)).estimate(problem)].  The estimate is sampled, so two
    runs on one problem differ: the run is identified by its rank among
    the runs of the cell. *)
Variable estimate : nat -> R -> R -> nat -> EstimationProblem -> AEResult.

(** An exception of the constructor of the objective leaves the
    helper. *)
Definition get_ae_results (run : nat)
    (uncertainty_model : LogNormalDistribution)
    (low high : R) (num_uncertainty_qubits : nat)
    (strike_price rescaling : R) (shots : nat) : outcome (R * (R * R)) :=
  match
    european_put_objective low high num_uncertainty_qubits strike_price
      rescaling
  with
  | Raised e => Raised e
  | Returned european_put_objective =>
      let european_put := (european_put_objective, uncertainty_model) in
      let epsilon := 0.01 in
      let alpha := 0.05 in
      let problem := mkProblem european_put [num_uncertainty_qubits] in
      let result := estimate run epsilon alpha shots problem in
      Returned
        (estimation_processed result, confidence_interval_processed result)
  end.

End Backend.

Definition default_strike_price : R := 2.1.
Definition default_rescaling_factor : R := 0.25.
Definition default_shots : nat := 100.

(** [get_ae_results(um, low, high)], as the cells call it. *)
Definition get_ae_results_defaults
    (estimate : nat -> R -> R -> nat -> EstimationProblem -> AEResult)
    (run : nat) (um : LogNormalDistribution) (low high : R)
    : outcome (R * (R * R)) :=
  get_ae_results estimate run um low high Uncertainty.default_qubits
    default_strike_price default_rescaling_factor default_shots.

End Estimation.

(** ** The scans over forty days *)

Module Scan.
Import Uncertainty.

(** The variables a scan cell updates. *)
Record cell_state : Type := mkCell {
  t : R;
  results : list R;
  conf_list : list (R * R)
}.

Definition dt : R := 1 / 365.

Definition initial : cell_state := mkCell dt [] [].

Section Cells.

(** [get_ae_results(um, low, high)] with its defaults, as the helper of
    either quantum notebook: run number, model, bounds. *)
Variable get_ae_results :
  nat -> LogNormalDistribution -> R -> R -> outcome (R * (R * R)).

(** The model built by the second cell at loop index [i] and time [t]. *)
Definition override_model (t : R) (i : nat)
    : outcome (LogNormalDistribution * R * R) :=
  if (i =? 20)%nat || (i =? 21)%nat
  then get_uncertainty_model t default_qubits default_S 0.9 default_r
  else get_uncertainty_model t default_qubits default_S default_vol
         default_r.

(** One pass of a quantum cell at time [t]: the model of the day, the
    helper on it, the two appends and the clock.  An exception of either
    call ends the cell. *)
Definition pass (model : outcome (LogNormalDistribution * R * R))
    (st : cell_state) (i : nat) : outcome cell_state :=
  match model with
  | Raised e => Raised e
  | Returned (um, low, high) =>
      match get_ae_results i um low high with
      | Raised e => Raised e
      | Returned (res, conf) =>
          Returned
            (mkCell (t st + dt) (results st ++ [res])
               (conf_list st ++ [conf]))
      end
  end.

(** Body of the loop of the second cell. *)
Definition override_body (st : outcome cell_state) (i : nat)
    : outcome cell_state :=
  match st with
  | Raised e => Raised e
  | Returned st => pass (override_model (t st) i) st i
  end.

(** [for i in range(n)], from the initial values of the cell. *)
Definition override_scan (n : nat) : outcome cell_state :=
  fold_left override_body (seq 0 n) (Returned initial).

(** What the loop computes at index [i]: the helper applied to the
    model of that day, the clock standing at [(i + 1) * dt]. *)
Definition day_result (i : nat) : outcome (R * (R * R)) :=
  match override_model (INR (i + 1) * dt) i with
  | Raised e => Raised e
  | Returned (um, low, high) => get_ae_results i um low high
  end.

End Cells.

(** A helper whose every call returns. *)
Definition returning (h : nat -> LogNormalDistribution -> R -> R
                          -> R * (R * R))
    : nat -> LogNormalDistribution -> R -> R -> outcome (R * (R * R)) :=
  fun i um low high => Returned (h i um low high).

(** The volatility the second cell passes at loop index [i]. *)
Definition override_vol (i : nat) : R :=
  if (i =? 20)%nat || (i =? 21)%nat then 0.9 else default_vol.

(** What the helper [h] answers at loop index [i] of the second cell, on
    the triple [get_uncertainty_model] hands back there when it
    returns. *)
Definition override_value
    (h : nat -> LogNormalDistribution -> R -> R -> R * (R * R)) (i : nat)
    : R * (R * R) :=
  let m := returned_model (INR (i + 1) * dt) default_qubits default_S
             (override_vol i) default_r in
  h i (fst (fst m)) (snd (fst m)) (snd m).

(** The model the second cell builds on 1-based day [day]. *)
Definition day_model (day : nat)
    : outcome (LogNormalDistribution * R * R) :=
  override_model (INR day * dt) (day - 1).


(** *** The same loop in the classical notebook (call, third cell) *)

(** The variables the cell updates, and the generator of the process. *)
Record classical_state : Type := mkClassical {
  c_t : R;
  c_results : list R;
  c_rng : Sampling.rng
}.

(** Body of the loop.  An exception in the pricer ends the cell. *)
Definition classical_override_body (st : outcome classical_state) (i : nat)
    : outcome classical_state :=
  match st with
  | Raised e => Raised e
  | Returned st =>
      let (price, g') :=
        if (i =? 20)%nat || (i =? 21)%nat
        then Sampling.get_price_call (c_t st) Sampling.default_S
               Sampling.default_K_call Sampling.default_r
               Sampling.default_q 0.9 Sampling.default_steps
               Sampling.default_N (c_rng st)
        else Sampling.get_price_call (c_t st) Sampling.default_S
               Sampling.default_K_call Sampling.default_r
               Sampling.default_q Sampling.default_sigma
               Sampling.default_steps Sampling.default_N (c_rng st) in
      match price with
      | Raised e => Raised e
      | Returned price =>
          Returned (mkClassical (c_t st + dt) (c_results st ++ [price]) g')
      end
  end.

Definition classical_override_scan (n : nat) (g : Sampling.rng)
    : outcome classical_state :=
  fold_left classical_override_body (seq 0 n)
    (Returned (mkClassical dt [] g)).

(** The generator as the call of loop index [i] finds it: [i] calls of
    [steps * N] draws each have gone before. *)
Definition rng_at (g : Sampling.rng) (i : nat) : Sampling.rng :=
  fun k =>
    g (i * (Sampling.default_steps * Sampling.default_N) + k)%nat.

(** The call the classical cell makes at loop index [i]. *)
Definition classical_day_call (g : Sampling.rng) (i : nat)
    : outcome R * Sampling.rng :=
  Sampling.get_price_call (INR (i + 1) * dt) Sampling.default_S
    Sampling.default_K_call Sampling.default_r Sampling.default_q
    (override_vol i) Sampling.default_steps Sampling.default_N
    (rng_at g i).

End Scan.

(** ** Selection of the reported value *)

Module Selector.

Section Generic.

Context {A C : Type}.

(** Strict comparison of two payoffs. *)
Variable ltb : A -> A -> bool.

(** [np.argmax]: a left-to-right pass that moves to a later index only
    on a strictly larger value, so the first maximum is kept. *)
Fixpoint argmax_from (best_i : nat) (best : A) (i : nat) (l : list A)
    : nat :=
  match l with
  | [] => best_i
  | x :: rest =>
      if ltb best x then argmax_from i x (S i) rest
      else argmax_from best_i best (S i) rest
  end.

Definition np_argmax (l : list A) : outcome nat :=
  match l with
  | [] => Raised ValueError
  | x :: rest => Returned (argmax_from 0 x 1 rest)
  end.

(** [np.amax]. *)
Fixpoint amax_from (best : A) (l : list A) : A :=
  match l with
  | [] => best
  | x :: rest => amax_from (if ltb best x then x else best) rest
  end.

Definition np_amax (l : list A) : outcome A :=
  match l with
  | [] => Raised ValueError
  | x :: rest => Returned (amax_from x rest)
  end.

(** The three lines printed at the end of a quantum cell: maximum
    payoff, [conf_list[np.argmax(results)]] and [np.argmax(results)+1]. *)
Definition report (results : list A) (conf_list : list C)
    : outcome (A * C * nat) :=
  match np_amax results with
  | Raised e => Raised e
  | Returned value =>
      match np_argmax results with
      | Raised e => Raised e
      | Returned k =>
          match nth_error conf_list k with
          | None => Raised IndexError
          | Some conf => Returned (value, conf, (k + 1)%nat)
          end
      end
  end.

(** The two lines printed at the end of a cell of the classical
    notebook. *)
Definition report_classical (results : list A) : outcome (A * nat) :=
  match np_amax results with
  | Raised e => Raised e
  | Returned value =>
      match np_argmax results with
      | Raised e => Raised e
      | Returned k => Returned (value, (k + 1)%nat)
      end
  end.

End Generic.

(** Comparison of floats. *)
Definition Rltb (a b : R) : bool := if Rlt_dec a b then true else false.

End Selector.

(** ** The array of paths, entry by entry *)

Module Paths.
Import Sampling.




(** [paths[-1]] of that call: the prices at the horizon, one per path. *)
Definition terminal_prices (T S r q sigma : R) (steps N : nat) (g : rng)
    : list R :=
  map (terminal_price T S r q sigma steps N g) (seq 0 N).

End Paths.

(** ** The other cells *)

Module Cells.
Import Uncertainty Scan.

Section Quantum.

(** [get_ae_results(um, low, high)] with its defaults: run number, model,
    bounds. *)
Variable get_ae_results :
  nat -> LogNormalDistribution -> R -> R -> outcome (R * (R * R)).

(** Body of the loop of the first quantum cell: every day at the
    defaults of [get_uncertainty_model]. *)
Definition uniform_body (st : outcome cell_state) (i : nat)
    : outcome cell_state :=
  match st with
  | Raised e => Raised e
  | Returned st =>
      pass get_ae_results
        (get_uncertainty_model (t st) default_qubits default_S default_vol
           default_r)
        st i
  end.

Definition uniform_scan (n : nat) : outcome cell_state :=
  fold_left uniform_body (seq 0 n) (Returned initial).

(** What that loop computes at index [i]. *)
Definition uniform_day_result (i : nat) : outcome (R * (R * R)) :=
  match
    get_uncertainty_model (INR (i + 1) * dt) default_qubits default_S
      default_vol default_r
  with
  | Raised e => Raised e
  | Returned (um, low, high) => get_ae_results i um low high
  end.

End Quantum.

(** What the helper [h] answers at loop index [i] of the first cell, on
    the triple [get_uncertainty_model] hands back there when it
    returns. *)
Definition uniform_value
    (h : nat -> LogNormalDistribution -> R -> R -> R * (R * R)) (i : nat)
    : R * (R * R) :=
  let m := returned_model (INR (i + 1) * dt) default_qubits default_S
             default_vol default_r in
  h i (fst (fst m)) (snd (fst m)) (snd m).

Section Classical.

(** One of the two pricers, called as the cells call it: time to
    maturity, volatility, generator state; everything else at its
    default. *)
Variable pricer : R -> R -> Sampling.rng -> outcome R * Sampling.rng.

(** The volatility the cell passes at loop index [i]. *)
Variable vol_at : nat -> R.

(** Body of the loop of a cell of the classical notebook.  An exception
    in the pricer ends the cell. *)
Definition classical_body (st : outcome classical_state) (i : nat)
    : outcome classical_state :=
  match st with
  | Raised e => Raised e
  | Returned st =>
      let (price, g') := pricer (c_t st) (vol_at i) (c_rng st) in
      match price with
      | Raised e => Raised e
      | Returned price =>
          Returned (mkClassical (c_t st + dt) (c_results st ++ [price]) g')
      end
  end.

Definition classical_scan (n : nat) (g : Sampling.rng)
    : outcome classical_state :=
  fold_left classical_body (seq 0 n) (Returned (mkClassical dt [] g)).

End Classical.

(** [get_price_call(t, sigma=...)] and [get_price_put(t, sigma=...)]. *)
Definition call_pricer (T sigma : R) (g : Sampling.rng)
    : outcome R * Sampling.rng :=
  Sampling.get_price_call T Sampling.default_S Sampling.default_K_call
    Sampling.default_r Sampling.default_q sigma Sampling.default_steps
    Sampling.default_N g.

Definition put_pricer (T sigma : R) (g : Sampling.rng)
    : outcome R * Sampling.rng :=
  Sampling.get_price_put T Sampling.default_S Sampling.default_K_put
    Sampling.default_r Sampling.default_q sigma Sampling.default_steps
    Sampling.default_N g.

(** The volatility of the cells with two days of higher volatility; the
    put cell writes the base value [0.4] out. *)
Definition put_override_vol (i : nat) : R :=
  if (i =? 20)%nat || (i =? 21)%nat then 0.9 else 0.4.

(** The four cells of the classical notebook, in the order of the
    notebook. *)
Definition call_uniform_scan (n : nat) (g : Sampling.rng)
    : outcome classical_state :=
  classical_scan call_pricer (fun _ => Sampling.default_sigma) n g.

Definition call_override_scan (n : nat) (g : Sampling.rng)
    : outcome classical_state :=
  classical_scan call_pricer override_vol n g.

Definition put_uniform_scan (n : nat) (g : Sampling.rng)
    : outcome classical_state :=
  classical_scan put_pricer (fun _ => Sampling.default_sigma) n g.

Definition put_override_scan (n : nat) (g : Sampling.rng)
    : outcome classical_state :=
  classical_scan put_pricer put_override_vol n g.

(** Draws per call of a pricer at the defaults. *)
Definition block : nat :=
  (Sampling.default_steps * Sampling.default_N)%nat.

(** The generator with the first [n] draws skipped. *)
Definition skip (n : nat) (g : Sampling.rng) : Sampling.rng :=
  fun k => g (n + k)%nat.

(** The prices the two pricers return at the defaults, as functions of
    the generator state they are called in. *)
Definition call_value (T sigma : R) (g : Sampling.rng) : R :=
  Sampling.np_mean
    (Sampling.call_payoffs T Sampling.default_S Sampling.default_K_call
       Sampling.default_r Sampling.default_q sigma Sampling.default_steps
       Sampling.default_N g)
  * exp (- Sampling.default_r * T).

Definition put_value (T sigma : R) (g : Sampling.rng) : R :=
  Sampling.np_mean
    (Sampling.put_payoffs T Sampling.default_S Sampling.default_K_put
       Sampling.default_r Sampling.default_q sigma Sampling.default_steps
       Sampling.default_N g)
  * exp (- Sampling.default_r * T).

End Cells.

(** ** Properties of the uncertainty model *)

Module UncertaintyFacts.
Import Uncertainty.

Lemma float_max_ge_1 : 1 <= float_max.
Proof.
  unfold float_max.
  assert (H1 : 1 <= 2 ^ 1023) by (apply pow_R1_Rle; lra).
  assert (H2 : 1 <= 2 ^ 52) by (apply pow_R1_Rle; lra).
  assert (H3 : / 2 ^ 52 <= / 1) by (apply Rinv_le_contravar; lra).
  rewrite Rinv_1 in H3. nra.
Qed.

Lemma body_mean_pos (t S vol r : R) : 0 < l_mean (body t S vol r).
Proof. unfold body; simpl. apply exp_pos. Qed.

Lemma body_variance_pos (t S vol r : R) :
  0 < l_sigma (body t S vol r) -> 0 < l_variance (body t S vol r).
Proof.
  unfold body; simpl. intros Hs.
  apply Rmult_lt_0_compat; [| apply exp_pos].
  set (s := vol * sqrt t) in *.
  assert (H1 : 0 < s * (s * 1)) by nra.
  pose proof (exp_increasing _ _ H1) as H2. rewrite exp_0 in H2. lra.
Qed.

Lemma body_stddev_pos (t S vol r : R) :
  0 < l_sigma (body t S vol r) -> 0 < l_stddev (body t S vol r).
Proof.
  intros Hs. pose proof (body_variance_pos t S vol r Hs) as Hv.
  unfold body in *; simpl in *. now apply sqrt_lt_R0.
Qed.

(** The mean of the model is the forward price. *)
Lemma body_mean_forward (t S vol r : R) :
  0 <= t -> 0 < S -> l_mean (body t S vol r) = S * exp (r * t).
Proof.
  intros Ht HS. unfold body; cbn [l_mean].
  replace ((r - 0.5 * vol ^ 2) * t + ln S + (vol * sqrt t) ^ 2 / 2)
    with (ln S + (r * t + vol ^ 2 * (sqrt t * sqrt t - t) / 2))
    by (simpl; lra).
  rewrite sqrt_sqrt by assumption.
  replace (r * t + vol ^ 2 * (t - t) / 2) with (r * t) by (simpl; lra).
  now rewrite exp_plus, exp_ln.
Qed.

(** With a vanishing log-space deviation the model collapses to the
    forward price. *)
Lemma body_collapsed (t S vol r : R) :
  0 <= t -> 0 < S -> vol * sqrt t = 0 ->
  l_low (body t S vol r) = S * exp (r * t) /\
  l_high (body t S vol r) = S * exp (r * t).
Proof.
  intros Ht HS Hsig.
  assert (Hv : vol ^ 2 * t = 0).
  { rewrite <- (sqrt_sqrt t Ht) at 1.
    replace (vol ^ 2 * (sqrt t * sqrt t))
      with ((vol * sqrt t) * (vol * sqrt t)) by ring.
    rewrite Hsig. ring. }
  unfold body; simpl. rewrite Hsig.
  replace (0 * (0 * 1)) with 0 by ring. rewrite exp_0.
  replace ((1 - 1) * exp (2 * ((r - 0.5 * (vol * (vol * 1))) * t + ln S) + 0))
    with 0 by ring.
  rewrite sqrt_0.
  replace ((r - 0.5 * (vol * (vol * 1))) * t + ln S + 0 / 2)
    with (ln S + (r * t - 0.5 * (vol ^ 2 * t))) by (simpl; field).
  rewrite Hv, exp_plus, exp_ln by assumption.
  replace (r * t - 0.5 * 0) with (r * t) by field.
  replace (S * exp (r * t) - 3 * 0) with (S * exp (r * t)) by ring.
  replace (S * exp (r * t) + 3 * 0) with (S * exp (r * t)) by ring.
  split; [| reflexivity].
  apply Rmax_right.
  apply Rlt_le, Rmult_lt_0_compat; [assumption | apply exp_pos].
Qed.

Lemma body_variance_pos_gen (t S vol r : R) :
  l_sigma (body t S vol r) <> 0 -> 0 < l_variance (body t S vol r).
Proof.
  unfold body; simpl. intros Hs.
  apply Rmult_lt_0_compat; [| apply exp_pos].
  set (s := vol * sqrt t) in *.
  assert (H1 : 0 < s * (s * 1)) by nra.
  pose proof (exp_increasing _ _ H1) as H2. rewrite exp_0 in H2. lra.
Qed.

Lemma body_stddev_pos_gen (t S vol r : R) :
  l_sigma (body t S vol r) <> 0 -> 0 < l_stddev (body t S vol r).
Proof.
  intros Hs. pose proof (body_variance_pos_gen t S vol r Hs) as Hv.
  unfold body in *; simpl in *. now apply sqrt_lt_R0.
Qed.


(** Over the reals the range is empty only when the deviation
    vanishes. *)
Lemma body_low_lt_high (t S vol r : R) :
  l_sigma (body t S vol r) <> 0 ->
  l_low (body t S vol r) < l_high (body t S vol r).
Proof.
  intros Hs.
  pose proof (body_stddev_pos_gen t S vol r Hs) as Hsd.
  pose proof (body_mean_pos t S vol r) as Hm.
  unfold body in *; simpl in *.
  apply Rmax_lub_lt; lra.
Qed.

Lemma body_high_le_low (t S vol r : R) :
  0 <= t -> 0 < S -> l_sigma (body t S vol r) = 0 ->
  l_high (body t S vol r) <= l_low (body t S vol r).
Proof.
  intros Ht HS Hs.
  destruct (body_collapsed t S vol r Ht HS) as [Hl Hh].
  - exact Hs.
  - rewrite Hl, Hh. apply Rle_refl.
Qed.

(** The two ways out of [get_uncertainty_model]. *)
Lemma get_uncertainty_model_returns (t S vol r : R) (n : nat) :
  l_low (body t S vol r) < l_high (body t S vol r) ->
  get_uncertainty_model t n S vol r = Returned (returned_model t n S vol r).
Proof.
  intros H. unfold get_uncertainty_model, LogNormalDistribution_init.
  cbv zeta. cbn [fst snd].
  destruct (Rlt_dec 0 (l_high (body t S vol r) - l_low (body t S vol r)))
    as [_ | Hn]; [reflexivity | exfalso; apply Hn; lra].
Qed.

Lemma get_uncertainty_model_raises (t S vol r : R) (n : nat) :
  l_high (body t S vol r) <= l_low (body t S vol r) ->
  get_uncertainty_model t n S vol r = Raised ValueError.
Proof.
  intros H. unfold get_uncertainty_model, LogNormalDistribution_init.
  cbv zeta. cbn [fst snd].
  destruct (Rlt_dec 0 (l_high (body t S vol r) - l_low (body t S vol r)))
    as [Hp | _]; [exfalso; lra | reflexivity].
Qed.

Lemma get_uncertainty_model_inv (t S vol r : R) (n : nat)
    (m : LogNormalDistribution * R * R) :
  get_uncertainty_model t n S vol r = Returned m ->
  m = returned_model t n S vol r /\
  l_low (body t S vol r) < l_high (body t S vol r).
Proof.
  intros H.
  destruct (Rlt_le_dec (l_low (body t S vol r)) (l_high (body t S vol r)))
    as [Hlt | Hle].
  - rewrite (get_uncertainty_model_returns t S vol r n Hlt) in H.
    split; [congruence | exact Hlt].
  - rewrite (get_uncertainty_model_raises t S vol r n Hle) in H.
    discriminate.
Qed.

(** Over the reals a positive time and a non-zero volatility leave the
    range non-empty, and the call returns. *)
Lemma get_uncertainty_model_returns_pos (t S vol r : R) (n : nat) :
  0 < t -> vol <> 0 ->
  get_uncertainty_model t n S vol r = Returned (returned_model t n S vol r).
Proof.
  intros Ht Hv. apply get_uncertainty_model_returns, body_low_lt_high.
  unfold body; cbn [l_sigma].
  pose proof (sqrt_lt_R0 t Ht) as Hs. nra.
Qed.

(** A call that returns was made at a positive time with a non-zero
    volatility. *)
Lemma get_uncertainty_model_returned_pos (t S vol r : R) (n : nat)
    (m : LogNormalDistribution * R * R) :
  0 <= t -> 0 < S ->
  get_uncertainty_model t n S vol r = Returned m ->
  0 < t /\ vol <> 0.
Proof.
  intros Ht HS H.
  destruct (get_uncertainty_model_inv t S vol r n m H) as [_ Hlt].
  assert (Hs : l_sigma (body t S vol r) <> 0).
  { intros Hz. pose proof (body_high_le_low t S vol r Ht HS Hz). lra. }
  unfold body in Hs; cbn [l_sigma] in Hs.
  split.
  - destruct Ht as [Hpos | <-]; [exact Hpos |].
    exfalso. apply Hs. rewrite sqrt_0. ring.
  - intros Hv. apply Hs. rewrite Hv. ring.
Qed.

(** The components of a returned triple. *)
Lemma returned_triple (t S vol r : R) (n : nat)
    (um : LogNormalDistribution) (low high : R) :
  get_uncertainty_model t n S vol r = Returned (um, low, high) ->
  um = mkLogNormal n (l_mu (body t S vol r)) (l_sigma (body t S vol r) ^ 2)
         (l_low (body t S vol r), l_high (body t S vol r)) /\
  low = l_low (body t S vol r) /\
  high = l_high (body t S vol r) /\
  low < high.
Proof.
  intros H.
  destruct (get_uncertainty_model_inv t S vol r n _ H) as [E Hlt].
  unfold returned_model in E. cbv zeta in E.
  assert (E1 : fst (fst (um, low, high))
               = mkLogNormal n (l_mu (body t S vol r))
                   (l_sigma (body t S vol r) ^ 2)
                   (l_low (body t S vol r), l_high (body t S vol r)))
    by (rewrite E; reflexivity).
  assert (E2 : snd (fst (um, low, high)) = l_low (body t S vol r))
    by (rewrite E; reflexivity).
  assert (E3 : snd (um, low, high) = l_high (body t S vol r))
    by (rewrite E; reflexivity).
  cbn [fst snd] in E1, E2, E3. subst um low high.
  repeat split; try reflexivity. exact Hlt.
Qed.

(** The distribution receives the variance of the log-price. *)
Lemma returned_model_sigma (t S vol r : R) (n : nat) :
  0 <= t ->
  sigma (fst (fst (returned_model t n S vol r))) = vol ^ 2 * t.
Proof.
  intros Ht. unfold returned_model, body. cbn [fst sigma l_sigma].
  replace ((vol * sqrt t) ^ 2) with (vol ^ 2 * (sqrt t * sqrt t)) by ring.
  now rewrite sqrt_sqrt.
Qed.

(** C1, as stated, fails: the specification's [mu] depends on a dividend
    yield [q], the model's does not.  At tau = 1, S = 2, vol = 0.4, r = 0
    and q = 1 the two differ. *)
Lemma spec_mu_with_yield_differs :
  l_mu (body 1 2 0.4 0) <> spec_mu 1 2 0.4 0 1.
Proof. unfold body, spec_mu; simpl. lra. Qed.

(** C1 (amended): for every time to maturity tau > 0 and market parameters
    S > 0, vol, r, the model computes, with no dividend yield (q = 0),
    mu = (r - 0 - vol^2/2) * tau + ln S, sigma = vol * sqrt tau,
    mean = exp (mu + sigma^2/2),
    variance = (exp (sigma^2) - 1) * exp (2 * mu + sigma^2),
    stddev = sqrt variance, low = max (0, mean - 3 * stddev) and
    high = mean + 3 * stddev; it hands mu, sigma^2 and the bounds to the
    distribution, and returns the distribution with these bounds when
    low < high, the constructor raising [ValueError] otherwise. *)
Theorem get_uncertainty_model_formulas (tau S vol r : R) (n : nat) :
  0 < tau -> 0 < S ->
  let v := body tau S vol r in
  l_mu v = spec_mu tau S vol r 0 /\
  l_sigma v = vol * sqrt tau /\
  l_mean v = exp (l_mu v + l_sigma v ^ 2 / 2) /\
  l_variance v
    = (exp (l_sigma v ^ 2) - 1) * exp (2 * l_mu v + l_sigma v ^ 2) /\
  l_stddev v = sqrt (l_variance v) /\
  l_low v = Rmax 0 (l_mean v - 3 * l_stddev v) /\
  l_high v = l_mean v + 3 * l_stddev v /\
  (l_low v < l_high v ->
   get_uncertainty_model tau n S vol r
   = Returned (mkLogNormal n (l_mu v) (l_sigma v ^ 2) (l_low v, l_high v),
               l_low v, l_high v)) /\
  (l_high v <= l_low v ->
   get_uncertainty_model tau n S vol r = Raised ValueError).
Proof.
  intros _ _ v. subst v.
  split; [unfold body, spec_mu; simpl; lra |].
  do 6 (split; [reflexivity |]).
  split.
  - apply get_uncertainty_model_returns.
  - apply get_uncertainty_model_raises.
Qed.

Lemma get_uncertainty_model_formulas_witness :
  l_mu (body (1 / 365) 2 0.4 0) = spec_mu (1 / 365) 2 0.4 0 0.
Proof.
  apply (get_uncertainty_model_formulas (1 / 365) 2 0.4 0 3); lra.
Defined.




End UncertaintyFacts.

(** ** Properties of the selection *)

Module SelectorFacts.
Import Selector.

Section Order.

Context {A C : Type}.
Variable ltb : A -> A -> bool.

Hypothesis ltb_irrefl : forall a, ltb a a = false.
Hypothesis ltb_trans :
  forall a b c, ltb a b = true -> ltb b c = true -> ltb a c = true.
Hypothesis ltb_neg_trans :
  forall a b c, ltb a b = false -> ltb b c = false -> ltb a c = false.

Lemma ltb_asym (a b : A) : ltb a b = true -> ltb b a = false.
Proof.
  intros Hab. destruct (ltb b a) eqn:Hba; [| reflexivity].
  rewrite <- (ltb_irrefl a). symmetry. now apply ltb_trans with b.
Qed.

Lemma le_lt_trans (a b c : A) :
  ltb b a = false -> ltb b c = true -> ltb a c = true.
Proof.
  intros Hab Hbc. destruct (ltb a c) eqn:Hac; [reflexivity |].
  rewrite <- Hbc. symmetry. now apply ltb_neg_trans with a.
Qed.

(** What one pass computes: either the running best survives, or a
    strictly larger element is met and the first of the largest wins. *)
Lemma argmax_from_spec (l : list A) :
  forall best_i best i,
    (argmax_from ltb best_i best i l = best_i /\
     amax_from ltb best l = best /\
     (forall x, In x l -> ltb best x = false))
    \/
    (exists j v,
       argmax_from ltb best_i best i l = (i + j)%nat /\
       amax_from ltb best l = v /\
       nth_error l j = Some v /\
       ltb best v = true /\
       (forall j' x, (j' < j)%nat -> nth_error l j' = Some x ->
                     ltb x v = true) /\
       (forall x, In x l -> ltb v x = false)).
Proof.
  induction l as [| x rest IH]; intros best_i best i; simpl.
  - left. repeat split; intros y [].
  - destruct (ltb best x) eqn:Hbx.
    + right.
      destruct (IH i x (S i))
      as [(Hk & Hm & Hall)
         | (j & v & Hk & Hm & Hn & Hlt & Hbefore & Hall)].
      * exists 0%nat, x. rewrite Hk, Hm, Nat.add_0_r.
        repeat split; try reflexivity; try assumption.
        -- intros j' y Hj'. lia.
        -- intros y [<- | Hy]; [apply ltb_irrefl | now apply Hall].
      * exists (S j), v. rewrite Hk, Hm.
        repeat split; try assumption.
        -- lia.
        -- now apply ltb_trans with x.
        -- intros [| j'] y Hj' Hy; simpl in Hy.
           ++ now injection Hy as <-.
           ++ apply (Hbefore j' y); [lia | assumption].
        -- intros y [<- | Hy]; [now apply ltb_asym | now apply Hall].
    + destruct (IH best_i best (S i))
      as [(Hk & Hm & Hall)
         | (j & v & Hk & Hm & Hn & Hlt & Hbefore & Hall)].
      * left. repeat split; try assumption.
        intros y [<- | Hy]; [assumption | now apply Hall].
      * right. exists (S j), v. rewrite Hk, Hm.
        repeat split; try assumption.
        -- lia.
        -- intros [| j'] y Hj' Hy; simpl in Hy.
           ++ injection Hy as <-. now apply le_lt_trans with best.
           ++ apply (Hbefore j' y); [lia | assumption].
        -- intros y [Hxy | Hy]; [subst y | now apply Hall].
           destruct (ltb v x) eqn:Hvx; [| reflexivity].
           rewrite <- Hbx. symmetry. now apply ltb_trans with v.
Qed.

(** [np.amax] and [np.argmax] agree on a non-empty array: the value at
    the index is the maximum, nothing exceeds it, and everything before
    the index is strictly below. *)
Lemma argmax_first_maximum (x : A) (rest : list A) :
  exists k value,
    np_argmax ltb (x :: rest) = Returned k /\
    np_amax ltb (x :: rest) = Returned value /\
    nth_error (x :: rest) k = Some value /\
    (forall y, In y (x :: rest) -> ltb value y = false) /\
    (forall j y, (j < k)%nat -> nth_error (x :: rest) j = Some y ->
                 ltb y value = true).
Proof.
  simpl np_argmax; simpl np_amax.
  destruct (argmax_from_spec rest 0%nat x 1%nat)
    as [(Hk & Hm & Hall) | (j & v & Hk & Hm & Hn & Hlt & Hbefore & Hall)].
  - exists 0%nat, x. rewrite Hk, Hm. repeat split.
    + intros y [<- | Hy]; [apply ltb_irrefl | now apply Hall].
    + intros j y Hj. lia.
  - exists (S j), v. rewrite Hk, Hm. repeat split; try assumption.
    + intros y [<- | Hy]; [now apply ltb_asym | now apply Hall].
    + intros [| j'] y Hj' Hy; simpl in Hy.
      * now injection Hy as <-.
      * apply (Hbefore j' y); [lia | assumption].
Qed.

Lemma report_first_maximum (results : list A) (conf_list : list C) :
  results <> [] -> length conf_list = length results ->
  exists k value conf,
    report ltb results conf_list = Returned (value, conf, (k + 1)%nat) /\
    report_classical ltb results = Returned (value, (k + 1)%nat) /\
    nth_error results k = Some value /\
    nth_error conf_list k = Some conf /\
    (forall y, In y results -> ltb value y = false) /\
    (forall j y, (j < k)%nat -> nth_error results j = Some y ->
                 ltb y value = true).
Proof.
  intros Hne Hlen. destruct results as [| x rest]; [contradiction |].
  destruct (argmax_first_maximum x rest)
    as (k & value & Hk & Hm & Hn & Hall & Hbefore).
  assert (Hlt : (k < length conf_list)%nat).
  { rewrite Hlen. apply nth_error_Some. rewrite Hn. discriminate. }
  destruct (nth_error conf_list k) as [conf |] eqn:Hc.
  2:{ apply nth_error_None in Hc. lia. }
  exists k, value, conf. unfold report, report_classical.
  rewrite Hk, Hm, Hc. repeat split; assumption.
Qed.

End Order.

Lemma Rltb_true (a b : R) : Rltb a b = true <-> a < b.
Proof.
  unfold Rltb. destruct (Rlt_dec a b); split; intros; try lra; congruence.
Qed.

Lemma Rltb_false (a b : R) : Rltb a b = false <-> b <= a.
Proof.
  unfold Rltb. destruct (Rlt_dec a b); split; intros; try lra; congruence.
Qed.

(** C2: for every non-empty, day-ordered sequence of per-day results, the
    lines that close each cell report the entry with the maximum expected
    payoff (a maximum in the call and the put notebook alike: the same
    lines, with no option kind), the earliest day on ties, that day's
    confidence interval as it was stored, and its 1-based day index. *)
Theorem report_selects_first_maximum
    (results : list R) (conf_list : list (R * R)) :
  results <> [] -> length conf_list = length results ->
  exists k value conf,
    report Rltb results conf_list = Returned (value, conf, (k + 1)%nat) /\
    report_classical Rltb results = Returned (value, (k + 1)%nat) /\
    nth_error results k = Some value /\
    nth_error conf_list k = Some conf /\
    (forall y, In y results -> y <= value) /\
    (forall j y, (j < k)%nat -> nth_error results j = Some y -> y < value).
Proof.
  intros Hne Hlen.
  destruct (report_first_maximum (C := R * R) Rltb) with (results := results)
    (conf_list := conf_list)
    as (k & value & conf & Hr & Hrc & Hn & Hc & Hall & Hbefore);
    try assumption.
  - intros a. apply Rltb_false. lra.
  - intros a b c H1 H2. apply Rltb_true in H1, H2. apply Rltb_true. lra.
  - intros a b c H1 H2. apply Rltb_false in H1, H2. apply Rltb_false. lra.
  - exists k, value, conf. repeat split; try assumption.
    + intros y Hy. apply Rltb_false. now apply Hall.
    + intros j y Hj Hy. apply Rltb_true. now apply (Hbefore j).
Qed.

Lemma report_selects_first_maximum_witness :
  exists k value conf,
    report Rltb [0.1; 0.3; 0.3; 0.2]
      [(0.0, 0.2); (0.2, 0.4); (0.25, 0.35); (0.1, 0.3)]
    = Returned (value, conf, (k + 1)%nat) /\
    report_classical Rltb [0.1; 0.3; 0.3; 0.2]
    = Returned (value, (k + 1)%nat) /\
    nth_error [0.1; 0.3; 0.3; 0.2] k = Some value /\
    nth_error [(0.0, 0.2); (0.2, 0.4); (0.25, 0.35); (0.1, 0.3)] k
    = Some conf /\
    (forall y, In y [0.1; 0.3; 0.3; 0.2] -> y <= value) /\
    (forall j y, (j < k)%nat ->
                 nth_error [0.1; 0.3; 0.3; 0.2] j = Some y -> y < value).
Proof.
  apply (report_selects_first_maximum [0.1; 0.3; 0.3; 0.2]
           [(0.0, 0.2); (0.2, 0.4); (0.25, 0.35); (0.1, 0.3)]);
    [discriminate | reflexivity].
Defined.

(** The pass on machine integers: of the two days that reach the maximum
    3, the earlier one is reported, with its own interval. *)
Example report_on_a_tie :
  report Nat.ltb [1; 3; 3; 2]%nat [(0, 2); (2, 4); (1, 5); (1, 3)]%nat
  = Returned (3, (2, 4), 2)%nat.
Proof. reflexivity. Qed.

Example report_on_nothing :
  report Nat.ltb ([] : list nat) ([] : list (nat * nat)) = Raised ValueError.
Proof. reflexivity. Qed.

End SelectorFacts.

(** ** Properties of the Monte Carlo pricer *)

Module SamplingFacts.
Import Sampling.

(** *** Arrays given by their entries *)

Lemma row_add_tabulated (F G : nat -> R) (js : list nat) :
  row_add (map F js) (map G js) = map (fun j => F j + G j) js.
Proof.
  unfold row_add. induction js as [| j js IH]; simpl;
    [reflexivity | now rewrite IH].
Qed.

Lemma last_cons {X : Type} (a d : X) (l : list X) :
  last (a :: l) d = last l a.
Proof.
  revert a d. induction l as [| b l IH]; intros a d; [reflexivity |].
  change (last (a :: b :: l) d) with (last (b :: l) d).
  now rewrite (IH b d), (IH b a).
Qed.

Lemma last_map_rows {X Y : Type} (f : X -> Y) (l : list X) (d : X) :
  last (map f l) (f d) = f (last l d).
Proof.
  revert d. induction l as [| a l IH]; intros d; [reflexivity |].
  change (map f (a :: l)) with (f a :: map f l).
  rewrite (last_cons (f a) (f d)), (last_cons a d). apply IH.
Qed.

(** The last row of a running sum is the sum of all rows. *)
Lemma cumsum_from_last (f : nat -> nat -> R) (js ks : list nat) :
  forall F0 : nat -> R,
    last (cumsum_from (map F0 js) (map (fun i => map (f i) js) ks))
         (map F0 js)
    = map (fun j => F0 j + np_sum (map (fun i => f i j) ks)) js.
Proof.
  induction ks as [| i ks IH]; intros F0; cbn [map cumsum_from].
  - cbn [last]. apply map_ext. intros j. unfold np_sum; simpl. ring.
  - rewrite row_add_tabulated, last_cons, IH.
    apply map_ext. intros j. unfold np_sum; simpl. ring.
Qed.

Lemma cumsum_axis0_last (f : nat -> nat -> R) (js : list nat) (steps : nat) :
  (0 < steps)%nat ->
  last (np_cumsum_axis0 (map (fun i => map (f i) js) (seq 0 steps))) []
  = map (fun j => np_sum (map (fun i => f i j) (seq 0 steps))) js.
Proof.
  intros Hs. destruct steps as [| n]; [lia |].
  change (seq 0 (S n)) with (0%nat :: seq 1 n).
  cbn [map np_cumsum_axis0]. rewrite last_cons.
  rewrite (cumsum_from_last f js (seq 1 n) (f 0%nat)).
  apply map_ext. intros j. reflexivity.
Qed.

Lemma np_sum_affine (a b : R) (z : nat -> R) (ks : list nat) :
  np_sum (map (fun i => a + b * z i) ks)
  = INR (length ks) * a + b * np_sum (map z ks).
Proof.
  unfold np_sum. induction ks as [| i ks IH].
  - simpl. ring.
  - cbn [map fold_right length]. rewrite IH, S_INR. ring.
Qed.

Lemma np_sum_ext_in (f h : nat -> R) (ks : list nat) :
  (forall i, In i ks -> f i = h i) ->
  np_sum (map f ks) = np_sum (map h ks).
Proof. intros H. f_equal. now apply map_ext_in. Qed.

Lemma np_sum_le (f h : nat -> R) (js : list nat) :
  (forall j, f j <= h j) -> np_sum (map f js) <= np_sum (map h js).
Proof.
  intros H. unfold np_sum. induction js as [| j js IH]; simpl; [lra |].
  specialize (H j). lra.
Qed.

Lemma np_sum_nonneg (f : nat -> R) (js : list nat) :
  (forall j, 0 <= f j) -> 0 <= np_sum (map f js).
Proof.
  intros H. unfold np_sum. induction js as [| j js IH]; simpl; [lra |].
  specialize (H j). lra.
Qed.

Lemma np_sum_scale (c : R) (f : nat -> R) (js : list nat) :
  np_sum (map (fun j => c * f j) js) = c * np_sum (map f js).
Proof.
  unfold np_sum. induction js as [| j js IH]; simpl; [ring |].
  rewrite IH. ring.
Qed.

(** *** The terminal prices *)

Lemma last_row_paths (T S r q sigma : R) (steps N : nat) (g : rng) :
  (0 < steps)%nat ->
  last_row (paths T S r q sigma steps (fst (np_random_normal steps N g)))
  = map (terminal_price T S r q sigma steps N g) (seq 0 N).
Proof.
  intros Hs. unfold last_row, paths, np_random_normal. cbn [fst].
  rewrite (last_map_rows (map exp) _ []).
  rewrite (last_map_rows (map (fun x => ln S + x)) _ []).
  set (a := (r - q - sigma ^ 2 / 2) * (T / INR steps)).
  set (b := sigma * sqrt (T / INR steps)).
  rewrite (map_map (fun i => map (fun j => g (i * N + j)%nat) (seq 0 N))
                   (map (fun z => a + b * z))).
  rewrite (map_ext
    (fun i => map (fun z => a + b * z)
                  (map (fun j => g (i * N + j)%nat) (seq 0 N)))
    (fun i => map (fun j => a + b * g (i * N + j)%nat) (seq 0 N)))
    by (intros i; rewrite map_map; reflexivity).
  rewrite (cumsum_axis0_last (fun i j => a + b * g (i * N + j)%nat))
    by assumption.
  rewrite !map_map. reflexivity.
Qed.

(** Drift and diffusion accumulated over the steps: the terminal
    log-price is [gbm_mu] plus [gbm_sigma] times the scaled sum of the
    draws of the path. *)
Lemma terminal_price_lognormal (T S r q sigma : R) (steps N : nat)
    (g : rng) (j : nat) :
  0 <= T -> (0 < steps)%nat ->
  terminal_price T S r q sigma steps N g j
  = exp (gbm_mu T S r q sigma
         + gbm_sigma T sigma * terminal_normal steps N g j).
Proof.
  intros HT Hsteps. unfold terminal_price, gbm_mu, gbm_sigma,
    terminal_normal, column_sum.
  rewrite (np_sum_affine _ _ (fun i => g (i * N + j)%nat)).
  rewrite length_seq.
  assert (Hn : 0 < INR steps) by (apply lt_0_INR; assumption).
  assert (Hs : 0 < sqrt (INR steps)) by (apply sqrt_lt_R0; assumption).
  rewrite sqrt_div by assumption.
  f_equal. field. split; lra.
Qed.


(** *** The two pricers in closed form *)

Lemma get_price_call_eq (T S K r q sigma : R) (steps N : nat) (g : rng) :
  (0 < steps)%nat ->
  get_price_call T S K r q sigma steps N g
  = (Returned (np_mean (call_payoffs T S K r q sigma steps N g)
               * exp (- r * T)),
     fun k => g (steps * N + k)%nat).
Proof.
  intros Hs. unfold get_price_call.
  destruct steps as [| n] eqn:E; [lia |]. rewrite <- E in *.
  unfold call_price.
  pose proof (last_row_paths T S r q sigma steps N g Hs) as Hl.
  unfold np_random_normal in *. cbn [fst] in Hl. rewrite Hl.
  unfold call_payoffs. rewrite map_map. reflexivity.
Qed.

Lemma get_price_put_eq (T S K r q sigma : R) (steps N : nat) (g : rng) :
  (0 < steps)%nat ->
  get_price_put T S K r q sigma steps N g
  = (Returned (np_mean (put_payoffs T S K r q sigma steps N g)
               * exp (- r * T)),
     fun k => g (steps * N + k)%nat).
Proof.
  intros Hs. unfold get_price_put.
  destruct steps as [| n] eqn:E; [lia |]. rewrite <- E in *.
  unfold put_price.
  pose proof (last_row_paths T S r q sigma steps N g Hs) as Hl.
  unfold np_random_normal in *. cbn [fst] in Hl. rewrite Hl.
  unfold put_payoffs. rewrite map_map. reflexivity.
Qed.

Lemma np_mean_tabulated_le (f h : nat -> R) (js : list nat) :
  (forall j, f j <= h j) -> np_mean (map f js) <= np_mean (map h js).
Proof.
  intros H. unfold np_mean. rewrite !length_map.
  pose proof (np_sum_le f h js H) as Hle.
  destruct js as [| j js].
  - unfold np_sum; simpl. lra.
  - assert (Hn : 0 < INR (length (j :: js)))
      by (apply lt_0_INR; simpl; lia).
    apply Rmult_le_compat_r; [| assumption].
    apply Rlt_le, Rinv_0_lt_compat, Hn.
Qed.

Lemma np_mean_tabulated_nonneg (f : nat -> R) (js : list nat) :
  (forall j, 0 <= f j) -> 0 <= np_mean (map f js).
Proof.
  intros H. unfold np_mean. rewrite length_map.
  pose proof (np_sum_nonneg f js H) as Hle.
  destruct js as [| j js].
  - unfold np_sum; simpl. lra.
  - assert (Hn : 0 < INR (length (j :: js)))
      by (apply lt_0_INR; simpl; lia).
    apply Rmult_le_pos; [assumption |].
    apply Rlt_le, Rinv_0_lt_compat, Hn.
Qed.

Lemma np_mean_tabulated_zero (f : nat -> R) (js : list nat) :
  (forall j, In j js -> f j = 0) -> np_mean (map f js) = 0.
Proof.
  intros H. unfold np_mean.
  rewrite (np_sum_ext_in f (fun _ => 0) js H).
  replace (np_sum (map (fun _ : nat => 0) js)) with 0.
  - unfold Rdiv. ring.
  - unfold np_sum. induction js as [| j js IH]; simpl.
    + reflexivity.
    + rewrite <- IH; [ring |]. intros i Hi. apply H. now right.
Qed.

Lemma np_mean_scale (c : R) (f : nat -> R) (js : list nat) :
  np_mean (map (fun j => c * f j) js) = np_mean (map f js) * c.
Proof.
  unfold np_mean. rewrite !length_map, np_sum_scale. unfold Rdiv. ring.
Qed.

Lemma terminal_price_ext (T S r q sigma : R) (steps N : nat)
    (g g' : rng) (j : nat) :
  (j < N)%nat ->
  (forall k, (k < steps * N)%nat -> g k = g' k) ->
  terminal_price T S r q sigma steps N g j
  = terminal_price T S r q sigma steps N g' j.
Proof.
  intros Hj Hg. unfold terminal_price. do 2 f_equal.
  apply np_sum_ext_in. intros i Hi. apply in_seq in Hi.
  rewrite Hg; [reflexivity |]. nia.
Qed.


Lemma get_price_call_ext (T S K r q sigma : R) (steps N : nat)
    (g g' : rng) :
  (0 < steps)%nat ->
  (forall k, (k < steps * N)%nat -> g k = g' k) ->
  fst (get_price_call T S K r q sigma steps N g)
  = fst (get_price_call T S K r q sigma steps N g').
Proof.
  intros Hsteps Hg. rewrite !get_price_call_eq by assumption. cbn [fst].
  unfold call_payoffs. do 3 f_equal. apply map_ext_in.
  intros j Hj. apply in_seq in Hj.
  rewrite (terminal_price_ext T S r q sigma steps N g g' j);
    [reflexivity | lia | assumption].
Qed.

Lemma get_price_put_ext (T S K r q sigma : R) (steps N : nat)
    (g g' : rng) :
  (0 < steps)%nat ->
  (forall k, (k < steps * N)%nat -> g k = g' k) ->
  fst (get_price_put T S K r q sigma steps N g)
  = fst (get_price_put T S K r q sigma steps N g').
Proof.
  intros Hsteps Hg. rewrite !get_price_put_eq by assumption. cbn [fst].
  unfold put_payoffs. do 3 f_equal. apply map_ext_in.
  intros j Hj. apply in_seq in Hj.
  rewrite (terminal_price_ext T S r q sigma steps N g g' j);
    [reflexivity | lia | assumption].
Qed.

(** Every entry of the array of draws is a draw of its own: two entries
    read the same draw of the generator only if they are the same
    entry. *)
Lemma np_random_normal_entries (steps N : nat) (g : rng) (i j : nat) :
  (i < steps)%nat -> (j < N)%nat ->
  nth j (nth i (fst (np_random_normal steps N g)) []) 0
  = g (i * N + j)%nat.
Proof.
  intros Hi Hj. unfold np_random_normal. cbn [fst].
  rewrite (nth_indep _ [] (map (fun j => g (0 * N + j)%nat) (seq 0 N)))
    by (now rewrite length_map, length_seq).
  rewrite (map_nth (fun i => map (fun j => g (i * N + j)%nat) (seq 0 N))
             (seq 0 steps) 0%nat i).
  rewrite seq_nth by assumption. cbn [Nat.add].
  rewrite (nth_indep _ 0 (g (i * N + 0)%nat))
    by (now rewrite length_map, length_seq).
  rewrite (map_nth (fun j => g (i * N + j)%nat) (seq 0 N) 0%nat j).
  now rewrite seq_nth.
Qed.

Lemma entries_read_distinct_draws (N i i' j j' : nat) :
  (j < N)%nat -> (j' < N)%nat ->
  (i * N + j = i' * N + j')%nat -> i = i' /\ j = j'.
Proof.
  intros Hj Hj' H.
  assert (Hi : i = i').
  { destruct (Nat.lt_trichotomy i i') as [Hlt | [Heq | Hgt]];
      [exfalso | assumption | exfalso]; nia. }
  subst i'. split; [reflexivity | lia].
Qed.

(** [np.sum] over a range of indices is the sum of the Standard
    Library. *)
Lemma np_sum_last (f : nat -> R) (n : nat) :
  np_sum (map f (seq 0 (n + 1))) = np_sum (map f (seq 0 n)) + f n.
Proof.
  rewrite Nat.add_1_r, seq_S, map_app. cbn [Nat.add map].
  unfold np_sum. induction (map f (seq 0 n)) as [| a l IH]; simpl.
  - ring.
  - fold (np_sum l) in *. rewrite IH. ring.
Qed.

Lemma np_sum_sum_f_R0 (f : nat -> R) (n : nat) :
  np_sum (map f (seq 0 (n + 1))) = sum_f_R0 f n.
Proof.
  induction n as [| n IH].
  - unfold np_sum; simpl. ring.
  - replace (Datatypes.S n + 1)%nat with ((n + 1) + 1)%nat by lia.
    rewrite np_sum_last, IH.
    replace (n + 1)%nat with (Datatypes.S n) by lia. reflexivity.
Qed.

Lemma np_sum_range (f : nat -> R) (n : nat) :
  (0 < n)%nat -> np_sum (map f (seq 0 n)) = sum_f_R0 f (n - 1).
Proof.
  intros Hn. replace n with ((n - 1) + 1)%nat at 1 by lia.
  apply np_sum_sum_f_R0.
Qed.

Lemma np_mean_range (f : nat -> R) (n : nat) :
  (0 < n)%nat ->
  np_mean (map f (seq 0 n)) = sum_f_R0 f (n - 1) / INR n.
Proof.
  intros Hn. unfold np_mean.
  now rewrite length_map, length_seq, np_sum_range.
Qed.

Lemma nth_tabulated (f : nat -> R) (n j : nat) :
  (j < n)%nat -> nth j (map f (seq 0 n)) 0 = f j.
Proof.
  intros Hj. rewrite (nth_indep _ 0 (f 0%nat))
    by (now rewrite length_map, length_seq).
  rewrite (map_nth f (seq 0 n) 0%nat j). now rewrite seq_nth.
Qed.

(** The terminal price of a path, with the sums written as sums of the
    Standard Library. *)
Lemma terminal_price_explicit (T S r q sigma : R) (steps N : nat)
    (g : rng) (j : nat) :
  0 <= T -> (0 < steps)%nat ->
  terminal_price T S r q sigma steps N g j
  = exp ((r - q - sigma ^ 2 / 2) * T + ln S
         + sigma * sqrt T
           * (sum_f_R0 (fun i => g (i * N + j)%nat) (steps - 1)
              / sqrt (INR steps))).
Proof.
  intros HT Hsteps. rewrite terminal_price_lognormal by assumption.
  unfold gbm_mu, gbm_sigma, terminal_normal, column_sum.
  now rewrite np_sum_range.
Qed.

(** The last row of the array under [np.cumsum]. *)
Lemma increments_accumulated (T r q sigma : R) (steps N : nat) (g : rng)
    (j : nat) :
  0 <= T -> (0 < steps)%nat -> (j < N)%nat ->
  nth j
    (last_row
       (np_cumsum_axis0
          (map (map (fun z => (r - q - sigma ^ 2 / 2) * (T / INR steps)
                              + sigma * sqrt (T / INR steps) * z))
               (fst (np_random_normal steps N g))))) 0
  = (r - q - sigma ^ 2 / 2) * T
    + sigma * sqrt T
      * (sum_f_R0 (fun i => g (i * N + j)%nat) (steps - 1)
         / sqrt (INR steps)).
Proof.
  intros HT Hsteps Hj. unfold last_row, np_random_normal. cbn [fst].
  set (a := (r - q - sigma ^ 2 / 2) * (T / INR steps)).
  set (b := sigma * sqrt (T / INR steps)).
  rewrite (map_map (fun i => map (fun j => g (i * N + j)%nat) (seq 0 N))
                   (map (fun z => a + b * z))).
  rewrite (map_ext
    (fun i => map (fun z => a + b * z)
                  (map (fun j => g (i * N + j)%nat) (seq 0 N)))
    (fun i => map (fun j => a + b * g (i * N + j)%nat) (seq 0 N)))
    by (intros i; rewrite map_map; reflexivity).
  rewrite (cumsum_axis0_last (fun i j => a + b * g (i * N + j)%nat))
    by assumption.
  rewrite (nth_tabulated
             (fun j => np_sum (map (fun i => a + b * g (i * N + j)%nat)
                                   (seq 0 steps))) N j Hj).
  rewrite (np_sum_affine a b (fun i => g (i * N + j)%nat)).
  rewrite length_seq, np_sum_range by assumption.
  subst a b.
  assert (Hn : 0 < INR steps) by (apply lt_0_INR; assumption).
  assert (Hs : 0 < sqrt (INR steps)) by (apply sqrt_lt_R0; assumption).
  rewrite sqrt_div by assumption.
  field. split; lra.
Qed.

(** *** The claims on the pricer *)

(** C3: the pricer prices one time step from N terminal log-prices, one
    per path and each built from draws no other path reads.  Down the
    [steps] rows of the array the increments accumulate: the per-step
    drifts (r - q - sigma^2/2) * dt add up to (r - q - sigma^2/2) * T and
    the diffusion terms to sigma * sqrt T times the scaled sum w_j of the
    draws of the path, so the terminal price of path j is
    exp (mu + sd * w_j) with mu = (r - q - sigma^2/2) * T + ln S and
    sd = sigma * sqrt T.  The pricer takes max (S_T - K, 0) for a call and
    max (K - S_T, 0) for a put and returns the sum of the N payoffs
    divided by N, discounted by exp (- r * T).  Without dividend yield mu
    and sd are those of the uncertainty model. *)
Theorem get_price_is_discounted_mean_payoff
    (T S K r q sigma : R) (steps N : nat) (g : rng) :
  0 < T -> 0 < S -> (0 < steps)%nat -> (0 < N)%nat ->
  let mu := (r - q - sigma ^ 2 / 2) * T + ln S in
  let sd := sigma * sqrt T in
  let Z := fst (np_random_normal steps N g) in
  let dt := T / INR steps in
  let w := fun j =>
    sum_f_R0 (fun i => g (i * N + j)%nat) (steps - 1) / sqrt (INR steps) in
  let S_T := fun j => exp (mu + sd * w j) in
  (forall i i' j j',
     (i < steps)%nat -> (i' < steps)%nat -> (j < N)%nat -> (j' < N)%nat ->
     (i, j) <> (i', j') ->
     exists k k',
       k <> k' /\ nth j (nth i Z []) 0 = g k /\ nth j' (nth i' Z []) 0 = g k')
  /\
  (forall j, (j < N)%nat ->
     nth j
       (last_row
          (np_cumsum_axis0
             (map (map (fun z => (r - q - sigma ^ 2 / 2) * dt
                                 + sigma * sqrt dt * z)) Z))) 0
     = (r - q - sigma ^ 2 / 2) * T + sd * w j) /\
  length (last_row (paths T S r q sigma steps Z)) = N /\
  (forall j, (j < N)%nat ->
     nth j (last_row (paths T S r q sigma steps Z)) 0 = S_T j) /\
  fst (get_price_call T S K r q sigma steps N g)
    = Returned
        (exp (- r * T)
         * (sum_f_R0 (fun j => Rmax (S_T j - K) 0) (N - 1) / INR N)) /\
  fst (get_price_put T S K r q sigma steps N g)
    = Returned
        (exp (- r * T)
         * (sum_f_R0 (fun j => Rmax (K - S_T j) 0) (N - 1) / INR N)) /\
  (q = 0 ->
   mu = Uncertainty.l_mu (Uncertainty.body T S sigma r) /\
   sd = Uncertainty.l_sigma (Uncertainty.body T S sigma r)).
Proof.
  intros HT HS Hsteps HN mu sd Z dt w S_T.
  assert (HT0 : 0 <= T) by lra.
  assert (Hprice : forall j,
    terminal_price T S r q sigma steps N g j = S_T j).
  { intros j. apply terminal_price_explicit; assumption. }
  split.
  { intros i i' j j' Hi Hi' Hj Hj' Hne.
    exists (i * N + j)%nat, (i' * N + j')%nat. subst Z.
    rewrite !np_random_normal_entries by assumption.
    split; [| split; reflexivity].
    intros Heq.
    destruct (entries_read_distinct_draws N i i' j j' Hj Hj' Heq).
    apply Hne. congruence. }
  split.
  { intros j Hj. subst Z dt sd w. cbv beta.
    apply increments_accumulated; assumption. }
  subst Z. rewrite last_row_paths by assumption.
  split; [now rewrite length_map, length_seq |].
  split.
  { intros j Hj. rewrite nth_tabulated by assumption. apply Hprice. }
  split; [| split].
  - rewrite get_price_call_eq by assumption. cbn [fst]. f_equal.
    unfold call_payoffs. rewrite np_mean_range by assumption.
    rewrite (sum_eq (fun j => Rmax (terminal_price T S r q sigma steps N g j
                                    - K) 0)
                    (fun j => Rmax (S_T j - K) 0))
      by (intros j _; now rewrite Hprice).
    ring.
  - rewrite get_price_put_eq by assumption. cbn [fst]. f_equal.
    unfold put_payoffs. rewrite np_mean_range by assumption.
    rewrite (sum_eq (fun j => Rmax (K - terminal_price T S r q sigma steps N
                                          g j) 0)
                    (fun j => Rmax (K - S_T j) 0))
      by (intros j _; now rewrite Hprice).
    ring.
  - intros Hq. subst mu sd. unfold Uncertainty.body; simpl. subst q.
    split; lra.
Qed.

Lemma get_price_is_discounted_mean_payoff_witness :
  fst (get_price_call 1 2 1.896 0 0 0.4 2 3 (fun k => INR k))
  = Returned
      (exp (- 0 * 1)
       * (sum_f_R0
            (fun j =>
               Rmax (exp ((0 - 0 - 0.4 ^ 2 / 2) * 1 + ln 2
                          + 0.4 * sqrt 1
                            * (sum_f_R0 (fun i => INR (i * 3 + j)) (2 - 1)
                               / sqrt (INR 2)))
                     - 1.896) 0)
            (3 - 1) / INR 3)).
Proof.
  apply (get_price_is_discounted_mean_payoff 1 2 1.896 0 0 0.4 2 3
           (fun k => INR k)); try lra; lia.
Defined.

(** C10: with the draws and all other arguments fixed, the price of the
    call does not increase and the price of the put does not decrease
    when the strike grows. *)
Theorem get_price_monotone_in_strike
    (T S K1 K2 r q sigma : R) (steps N : nat) (g : rng) :
  0 < T -> 0 < S -> (0 < steps)%nat -> (0 < N)%nat -> K1 <= K2 ->
  exists c1 c2 p1 p2,
    fst (get_price_call T S K1 r q sigma steps N g) = Returned c1 /\
    fst (get_price_call T S K2 r q sigma steps N g) = Returned c2 /\
    fst (get_price_put T S K1 r q sigma steps N g) = Returned p1 /\
    fst (get_price_put T S K2 r q sigma steps N g) = Returned p2 /\
    c2 <= c1 /\ p1 <= p2.
Proof.
  intros _ _ Hsteps _ HK.
  rewrite !get_price_call_eq, !get_price_put_eq by assumption. cbn [fst].
  do 4 eexists. repeat split.
  - apply Rmult_le_compat_r; [apply Rlt_le, exp_pos |].
    apply np_mean_tabulated_le. intros j.
    apply Rmax_lub; [| apply Rmax_r].
    apply Rle_trans with (terminal_price T S r q sigma steps N g j - K1);
      [lra | apply Rmax_l].
  - apply Rmult_le_compat_r; [apply Rlt_le, exp_pos |].
    apply np_mean_tabulated_le. intros j.
    apply Rmax_lub; [| apply Rmax_r].
    apply Rle_trans with (K2 - terminal_price T S r q sigma steps N g j);
      [lra | apply Rmax_l].
Qed.

Lemma get_price_monotone_in_strike_witness :
  exists c1 c2 p1 p2,
    fst (get_price_call 1 2 1.896 0 0 0.4 2 3 (fun k => INR k))
      = Returned c1 /\
    fst (get_price_call 1 2 2.1 0 0 0.4 2 3 (fun k => INR k))
      = Returned c2 /\
    fst (get_price_put 1 2 1.896 0 0 0.4 2 3 (fun k => INR k))
      = Returned p1 /\
    fst (get_price_put 1 2 2.1 0 0 0.4 2 3 (fun k => INR k))
      = Returned p2 /\
    c2 <= c1 /\ p1 <= p2.
Proof.
  apply (get_price_monotone_in_strike 1 2 1.896 2.1 0 0 0.4 2 3
           (fun k => INR k)); try lra; lia.
Defined.


(** C9, as stated, fails: the pricer takes neither seed nor generator, it
    reads numpy's process-wide one.  Called twice with the same arguments
    (T = 1, steps = 1, N = 1, the other defaults) in a process whose
    generator yields the draws 0, 1, ..., it returns at most 0.104 the
    first time and more the second. *)
Lemma same_arguments_different_prices :
  exists p1 p2,
    call_twice 1 2 1.896 0 0 0.4 1 1 (fun k => INR k)
      = (Returned p1, Returned p2) /\
    p1 <> p2.
Proof.
  unfold call_twice.
  rewrite (get_price_call_eq 1 2 1.896 0 0 0.4 1 1 (fun k => INR k))
    by lia.
  rewrite (get_price_call_eq 1 2 1.896 0 0 0.4 1 1
             (fun k => INR (1 * 1 + k))) by lia.
  do 2 eexists. split; [reflexivity |].
  unfold call_payoffs, np_mean, terminal_price, np_sum.
  cbn [seq map fold_right length Nat.mul Nat.add INR].
  replace (1 / 1) with 1 by field. rewrite sqrt_1.
  replace (-0 * 1) with 0 by ring. rewrite exp_0.
  replace ((0 - 0 - 0.4 ^ 2 / 2) * 1 + 0.4 * 1 * 0 + 0) with (- 0.08)
    by (simpl; lra).
  replace ((0 - 0 - 0.4 ^ 2 / 2) * 1 + 0.4 * 1 * 1 + 0) with 0.32
    by (simpl; lra).
  rewrite !exp_plus, exp_ln by lra.
  assert (H1 : exp (- 0.08) < 1).
  { rewrite <- exp_0. apply exp_increasing. lra. }
  assert (H2 : 1 < exp 0.32).
  { rewrite <- exp_0 at 1. apply exp_increasing. lra. }
  assert (Hp1 : Rmax (2 * exp (- 0.08) - 1.896) 0 <= 0.104)
    by (apply Rmax_lub; lra).
  pose proof (Rmax_l (2 * exp 0.32 - 1.896) 0) as Hp2.
  lra.
Qed.

(** C9 (amended): the pricer is a function of its arguments and of the
    state of numpy's process-wide generator.  A call with steps > 0 reads
    the next steps * N draws and leaves the generator advanced by as many,
    and its price depends on nothing else: two runs whose generators
    agree on these draws return the same price for the same arguments. *)
Theorem get_price_determined_by_generator_state
    (T S K r q sigma : R) (steps N : nat) (g g' : rng) :
  (0 < steps)%nat ->
  snd (get_price_call T S K r q sigma steps N g)
    = (fun k => g (steps * N + k)%nat) /\
  snd (get_price_put T S K r q sigma steps N g)
    = (fun k => g (steps * N + k)%nat) /\
  ((forall k, (k < steps * N)%nat -> g k = g' k) ->
   fst (get_price_call T S K r q sigma steps N g)
     = fst (get_price_call T S K r q sigma steps N g') /\
   fst (get_price_put T S K r q sigma steps N g)
     = fst (get_price_put T S K r q sigma steps N g')).
Proof.
  intros Hsteps. split; [| split].
  - now rewrite get_price_call_eq.
  - now rewrite get_price_put_eq.
  - intros Hg. split.
    + now apply get_price_call_ext.
    + now apply get_price_put_ext.
Qed.

Lemma get_price_determined_by_generator_state_witness :
  snd (get_price_call 1 2 1.896 0 0 0.4 2 3 (fun k => INR k))
    = (fun k => INR (2 * 3 + k)).
Proof.
  apply (get_price_determined_by_generator_state 1 2 1.896 0 0 0.4 2 3
           (fun k => INR k) (fun k => INR k)). lia.
Defined.

End SamplingFacts.

(** ** Properties of the objective of the put *)

Module EstimationFacts.
Import Estimation.

(** The constructor accepts the breakpoints [low, K] on the domain
    [low, high] exactly when low < K <= high. *)
Lemma european_put_objective_returns (low high K c : R) (n : nat) :
  low < K <= high ->
  european_put_objective low high n K c
  = Returned (mkObjective n [-1; 0] [K - low; 0] (low, high) (0, K - low)
                [low; K] c).
Proof.
  intros [H1 H2].
  unfold european_put_objective, LinearAmplitudeFunction_init,
    outside_domain.
  cbn [strictly_increasing last fst snd].
  destruct (Rlt_dec low K) as [_ | Hn]; [| contradiction].
  destruct (Rlt_dec low low) as [Hl | _]; [exfalso; lra |].
  destruct (Rlt_dec high K) as [Hh | _]; [exfalso; lra |].
  reflexivity.
Qed.

Lemma european_put_objective_raises (low high K c : R) (n : nat) :
  K <= low \/ high < K ->
  european_put_objective low high n K c = Raised ValueError.
Proof.
  intros H.
  unfold european_put_objective, LinearAmplitudeFunction_init,
    outside_domain.
  cbn [strictly_increasing last fst snd].
  destruct (Rlt_dec low K) as [Hlt | Hn]; [| reflexivity].
  destruct (Rlt_dec low low) as [Hl | _]; [exfalso; lra |].
  destruct (Rlt_dec high K) as [Hh | Hh]; [reflexivity |].
  exfalso. destruct H; lra.
Qed.

Lemma european_put_objective_inv (low high K c : R) (n : nat)
    (f : LinearAmplitudeFunction) :
  european_put_objective low high n K c = Returned f ->
  low < K <= high /\
  f = mkObjective n [-1; 0] [K - low; 0] (low, high) (0, K - low)
        [low; K] c.
Proof.
  intros H.
  destruct (Rlt_le_dec low K) as [H1 | H1].
  - destruct (Rle_lt_dec K high) as [H2 | H2].
    + rewrite (european_put_objective_returns low high K c n (conj H1 H2))
        in H.
      split; [split; assumption | congruence].
    + rewrite (european_put_objective_raises low high K c n (or_intror H2))
        in H. discriminate.
  - rewrite (european_put_objective_raises low high K c n (or_introl H1))
      in H. discriminate.
Qed.

(** On the domain a constructed objective is the payoff of the put. *)
Lemma put_objective_value (low high K c x : R) (n : nat)
    (f : LinearAmplitudeFunction) :
  european_put_objective low high n K c = Returned f ->
  low <= x ->
  objective_value f x = Rmax (K - x) 0.
Proof.
  intros Hf Hx.
  destruct (european_put_objective_inv low high K c n f Hf) as [_ E].
  subst f. unfold objective_value.
  cbn [breakpoints slopes offsets piecewise_from].
  destruct (Rle_dec low x) as [_ | Hn]; [| contradiction].
  destruct (Rle_dec K x) as [HK | HK].
  - rewrite Rmax_right by lra. ring.
  - rewrite Rmax_left by lra. ring.
Qed.

End EstimationFacts.

(** ** Strikes beyond the range of prices *)

Module StrikeFacts.
Import Uncertainty Sampling Estimation SamplingFacts EstimationFacts.

(** The two prices as sums over the last row of [paths]. *)
Lemma get_price_call_sum (T S K r q sigma : R) (steps N : nat) (g : rng) :
  (0 < steps)%nat -> (0 < N)%nat ->
  fst (get_price_call T S K r q sigma steps N g)
  = Returned
      (exp (- r * T)
       * (sum_f_R0
            (fun j =>
               Rmax (nth j (last_row
                              (paths T S r q sigma steps
                                 (fst (np_random_normal steps N g)))) 0
                     - K) 0)
            (N - 1) / INR N)).
Proof.
  intros Hs HN. rewrite get_price_call_eq by assumption. cbn [fst].
  f_equal. unfold call_payoffs. rewrite np_mean_range by assumption.
  rewrite last_row_paths by assumption.
  rewrite (sum_eq
    (fun j => Rmax (terminal_price T S r q sigma steps N g j - K) 0)
    (fun j => Rmax (nth j (map (terminal_price T S r q sigma steps N g)
                             (seq 0 N)) 0 - K) 0)).
  - ring.
  - intros j Hj. rewrite nth_tabulated by lia. reflexivity.
Qed.

Lemma get_price_put_sum (T S K r q sigma : R) (steps N : nat) (g : rng) :
  (0 < steps)%nat -> (0 < N)%nat ->
  fst (get_price_put T S K r q sigma steps N g)
  = Returned
      (exp (- r * T)
       * (sum_f_R0
            (fun j =>
               Rmax (K - nth j (last_row
                                  (paths T S r q sigma steps
                                     (fst (np_random_normal steps N g)))) 0)
                    0)
            (N - 1) / INR N)).
Proof.
  intros Hs HN. rewrite get_price_put_eq by assumption. cbn [fst].
  f_equal. unfold put_payoffs. rewrite np_mean_range by assumption.
  rewrite last_row_paths by assumption.
  rewrite (sum_eq
    (fun j => Rmax (K - terminal_price T S r q sigma steps N g j) 0)
    (fun j => Rmax (K - nth j (map (terminal_price T S r q sigma steps N g)
                                 (seq 0 N)) 0) 0)).
  - ring.
  - intros j Hj. rewrite nth_tabulated by lia. reflexivity.
Qed.

Lemma sum_f_R0_nonneg (f : nat -> R) (n : nat) :
  (forall j, (j <= n)%nat -> 0 <= f j) -> 0 <= sum_f_R0 f n.
Proof.
  intros H. induction n as [| n IH]; simpl.
  - apply H; lia.
  - apply Rplus_le_le_0_compat; [apply IH; intros; apply H; lia |].
    apply H; lia.
Qed.

Lemma sum_f_R0_zero (f : nat -> R) (n : nat) :
  (forall j, (j <= n)%nat -> f j = 0) -> sum_f_R0 f n = 0.
Proof.
  intros H. induction n as [| n IH]; simpl.
  - apply H; lia.
  - rewrite IH by (intros; apply H; lia). rewrite (H (Datatypes.S n)) by lia.
    ring.
Qed.

(** The mean of [K - x_j] and of [x_j - K] over [n] values. *)
Lemma mean_of_differences (x : nat -> R) (K : R) (n : nat) :
  (0 < n)%nat ->
  sum_f_R0 (fun j => K - x j) (n - 1) / INR n
  = K - sum_f_R0 x (n - 1) / INR n /\
  sum_f_R0 (fun j => x j - K) (n - 1) / INR n
  = sum_f_R0 x (n - 1) / INR n - K.
Proof.
  intros Hn.
  assert (Hp : 0 < INR n) by (apply lt_0_INR; assumption).
  assert (Hc : sum_f_R0 (fun _ => K) (n - 1) = K * INR n).
  { rewrite sum_cte. f_equal. f_equal. lia. }
  split.
  - rewrite (minus_sum (fun _ => K) x), Hc. field. lra.
  - rewrite (minus_sum x (fun _ => K)), Hc. field. lra.
Qed.

(** C8, as stated, fails: for the range low = 1, high = 3 and the strike
    K = 5 above it, the helper of the quantum put raises the [ValueError]
    of the constructor of the objective, whatever the estimation would
    answer; and so it does for the strike K = 1/2 below the range. *)
Lemma strike_outside_range_is_rejected :
  get_ae_results (fun _ _ _ _ _ => mkAEResult 0 (0, 0)) 0
    (mkLogNormal 3 0 1 (1, 3)) 1 3 3 5 0.25 100
  = Raised ValueError /\
  get_ae_results (fun _ _ _ _ _ => mkAEResult 0 (0, 0)) 0
    (mkLogNormal 3 0 1 (1, 3)) 1 3 3 (1 / 2) 0.25 100
  = Raised ValueError.
Proof.
  split; unfold get_ae_results;
    rewrite european_put_objective_raises; try reflexivity; lra.
Qed.

(** C8 (amended): the Monte Carlo pricer accepts every strike (at a
    volatility whose square is in the range of floats): it returns a
    price for every K, never negative, and the payoff saturates: once K
    is at or above every terminal price the call is worth 0 and the put
    exp (- r * T) * (K - mean of the terminal prices); once K is at or
    below every terminal price the put is worth 0 and the call
    exp (- r * T) * (mean of the terminal prices - K).  The helper of the
    quantum put accepts a strike only when low < K <= high: then it
    returns what the estimation answers for the objective max (K - x, 0)
    on [low, high], which reaches the image bound K - low at x = low; for
    K <= low and for K > high it raises [ValueError]. *)
Theorem strike_outside_range_sampling_only
    (K T S r q sigma : R) (steps N : nat) (g : rng)
    (low high c : R) (n : nat) :
  0 < T -> 0 < S -> sigma ^ 2 <= float_max ->
  (0 < steps)%nat -> (0 < N)%nat -> low < high ->
  let x := fun j =>
    nth j (last_row (paths T S r q sigma steps
                       (fst (np_random_normal steps N g)))) 0 in
  let mean_x := sum_f_R0 x (N - 1) / INR N in
  (exists cp pp,
     fst (get_price_call T S K r q sigma steps N g) = Returned cp /\
     fst (get_price_put T S K r q sigma steps N g) = Returned pp /\
     0 <= cp /\ 0 <= pp /\
     ((forall j, (j < N)%nat -> x j <= K) ->
      cp = 0 /\ pp = exp (- r * T) * (K - mean_x)) /\
     ((forall j, (j < N)%nat -> K <= x j) ->
      pp = 0 /\ cp = exp (- r * T) * (mean_x - K)))
  /\
  (forall estimate run um shots,
     (K <= low \/ high < K ->
      get_ae_results estimate run um low high n K c shots
      = Raised ValueError) /\
     (low < K <= high ->
      exists f,
        european_put_objective low high n K c = Returned f /\
        get_ae_results estimate run um low high n K c shots
        = Returned
            (estimation_processed
               (estimate run 0.01 0.05 shots (mkProblem (f, um) [n])),
             confidence_interval_processed
               (estimate run 0.01 0.05 shots (mkProblem (f, um) [n]))) /\
        image f = (0, K - low) /\
        objective_value f low = K - low /\
        (forall y, low <= y <= high ->
                   objective_value f y = Rmax (K - y) 0))).
Proof.
  intros _ _ _ Hsteps HN Hlh x mean_x.
  assert (Hp : 0 < INR N) by (apply lt_0_INR; assumption).
  assert (He : 0 < exp (- r * T)) by apply exp_pos.
  split.
  - assert (Hc : fst (get_price_call T S K r q sigma steps N g)
                 = Returned
                     (exp (- r * T)
                      * (sum_f_R0 (fun j => Rmax (x j - K) 0) (N - 1)
                         / INR N)))
      by (apply get_price_call_sum; assumption).
    assert (Hq : fst (get_price_put T S K r q sigma steps N g)
                 = Returned
                     (exp (- r * T)
                      * (sum_f_R0 (fun j => Rmax (K - x j) 0) (N - 1)
                         / INR N)))
      by (apply get_price_put_sum; assumption).
    rewrite Hc, Hq. clear Hc Hq. do 2 eexists.
    split; [reflexivity |]. split; [reflexivity |].
    split; [| split; [| split]].
    + apply Rmult_le_pos; [lra |].
      apply Rmult_le_pos; [| apply Rlt_le, Rinv_0_lt_compat; exact Hp].
      apply sum_f_R0_nonneg. intros j _. apply Rmax_r.
    + apply Rmult_le_pos; [lra |].
      apply Rmult_le_pos; [| apply Rlt_le, Rinv_0_lt_compat; exact Hp].
      apply sum_f_R0_nonneg. intros j _. apply Rmax_r.
    + intros Hall. split.
      * rewrite sum_f_R0_zero; [unfold Rdiv; ring |].
        intros j Hj. apply Rmax_right.
        assert (Hj' : (j < N)%nat) by lia. specialize (Hall j Hj'). lra.
      * rewrite (sum_eq (fun j => Rmax (K - x j) 0) (fun j => K - x j)).
        -- subst mean_x.
           now rewrite (proj1 (mean_of_differences x K N HN)).
        -- intros j Hj. apply Rmax_left.
           assert (Hj' : (j < N)%nat) by lia. specialize (Hall j Hj'). lra.
    + intros Hall. split.
      * rewrite sum_f_R0_zero; [unfold Rdiv; ring |].
        intros j Hj. apply Rmax_right.
        assert (Hj' : (j < N)%nat) by lia. specialize (Hall j Hj'). lra.
      * rewrite (sum_eq (fun j => Rmax (x j - K) 0) (fun j => x j - K)).
        -- subst mean_x.
           now rewrite (proj2 (mean_of_differences x K N HN)).
        -- intros j Hj. apply Rmax_left.
           assert (Hj' : (j < N)%nat) by lia. specialize (Hall j Hj'). lra.
  - intros estimate run um shots. split.
    + intros HK. unfold get_ae_results.
      now rewrite european_put_objective_raises.
    + intros HK. eexists.
      split; [apply european_put_objective_returns; exact HK |].
      split.
      * unfold get_ae_results.
        rewrite european_put_objective_returns by exact HK. reflexivity.
      * split; [reflexivity |].
        split.
        -- rewrite (put_objective_value low high K c low n)
             by (try apply european_put_objective_returns; lra).
           apply Rmax_left. lra.
        -- intros y Hy.
           apply (put_objective_value low high K c y n);
             [apply european_put_objective_returns; exact HK | lra].
Qed.

Lemma strike_outside_range_sampling_only_witness :
  (exists cp pp,
     fst (get_price_call 1 2 5 0 0 0.4 2 3 (fun k => INR k)) = Returned cp /\
     fst (get_price_put 1 2 5 0 0 0.4 2 3 (fun k => INR k)) = Returned pp /\
     0 <= cp /\ 0 <= pp) /\
  get_ae_results (fun _ _ _ _ _ => mkAEResult 0 (0, 0)) 0
    (mkLogNormal 3 0 1 (1, 3)) 1 3 3 5 0.25 100
  = Raised ValueError /\
  exists f,
    european_put_objective 1 3 3 2 0.25 = Returned f /\
    objective_value f 1 = 2 - 1.
Proof.
  assert (Hv : 0.4 ^ 2 <= float_max)
    by (pose proof UncertaintyFacts.float_max_ge_1; lra).
  destruct (strike_outside_range_sampling_only 5 1 2 0 0 0.4 2 3
              (fun k => INR k) 1 3 0.25 3
              ltac:(lra) ltac:(lra) Hv ltac:(lia) ltac:(lia) ltac:(lra))
    as [(cp & pp & Hc & Hp & Hc0 & Hp0 & _) Hq5].
  split; [exists cp, pp; repeat split; assumption |].
  assert (H35 : 5 <= 1 \/ 3 < 5) by (right; lra).
  split;
    [exact (proj1 (Hq5 (fun _ _ _ _ _ => mkAEResult 0 (0, 0)) 0%nat
                     (mkLogNormal 3 0 1 (1, 3)) 100%nat) H35) |].
  destruct (strike_outside_range_sampling_only 2 1 2 0 0 0.4 2 3
              (fun k => INR k) 1 3 0.25 3
              ltac:(lra) ltac:(lra) Hv ltac:(lia) ltac:(lia) ltac:(lra))
    as [_ Hq].
  destruct (proj2 (Hq (fun _ _ _ _ _ => mkAEResult 0 (0, 0)) 0%nat
                     (mkLogNormal 3 0 1 (1, 3)) 100%nat) ltac:(lra))
    as (f & Hf & _ & _ & Hlow & _).
  exists f. split; [exact Hf | exact Hlow].
Defined.

End StrikeFacts.

(** ** Properties of the scan with two days of higher volatility *)

Module ScanFacts.
Import Uncertainty Scan Selector SelectorFacts UncertaintyFacts.

Lemma day_time_pos (i : nat) : 0 < INR (i + 1) * dt.
Proof.
  unfold dt. rewrite plus_INR. pose proof (pos_INR i). simpl. lra.
Qed.

Lemma override_model_vol (t : R) (i : nat) :
  override_model t i
  = get_uncertainty_model t default_qubits default_S (override_vol i)
      default_r.
Proof.
  unfold override_model, override_vol.
  now destruct ((i =? 20)%nat || (i =? 21)%nat).
Qed.

Lemma override_vol_cases (i : nat) :
  (i = 20%nat \/ i = 21%nat -> override_vol i = 0.9) /\
  (i <> 20%nat -> i <> 21%nat -> override_vol i = 0.4).
Proof.
  unfold override_vol, default_vol. split.
  - intros [-> | ->]; reflexivity.
  - intros H1 H2. apply Nat.eqb_neq in H1, H2. now rewrite H1, H2.
Qed.

Lemma override_vol_nonzero (i : nat) : override_vol i <> 0.
Proof.
  unfold override_vol, default_vol.
  destruct ((i =? 20)%nat || (i =? 21)%nat); lra.
Qed.

(** On every day of a scan the range is not empty, and the model is
    returned. *)
Lemma override_model_returns (i : nat) :
  override_model (INR (i + 1) * dt) i
  = Returned (returned_model (INR (i + 1) * dt) default_qubits default_S
                (override_vol i) default_r).
Proof.
  rewrite override_model_vol.
  apply get_uncertainty_model_returns_pos;
    [apply day_time_pos | apply override_vol_nonzero].
Qed.

Lemma override_scan_S
    (H : nat -> LogNormalDistribution -> R -> R -> outcome (R * (R * R)))
    (n : nat) :
  override_scan H (S n) = override_body H (override_scan H n) n.
Proof.
  unfold override_scan. now rewrite seq_S, fold_left_app.
Qed.

Section Cells.

Variable h : nat -> LogNormalDistribution -> R -> R -> R * (R * R).

Lemma day_result_returning (i : nat) :
  day_result (returning h) i = Returned (override_value h i).
Proof.
  unfold day_result. rewrite override_model_returns. reflexivity.
Qed.

(** With a helper that returns, the cell runs through: after [n] rounds
    the clock stands at [(n + 1) * dt] and the two lists hold the results
    of the days so far, in day order. *)
Lemma override_scan_state (n : nat) :
  exists st,
    override_scan (returning h) n = Returned st /\
    t st = INR (n + 1) * dt /\
    results st = map (fun i => fst (override_value h i)) (seq 0 n) /\
    conf_list st = map (fun i => snd (override_value h i)) (seq 0 n).
Proof.
  induction n as [| n (st & Hscan & Ht & Hr & Hc)].
  - exists initial. split; [reflexivity |].
    cbn [t results conf_list initial seq map].
    split; [simpl; lra | split; reflexivity].
  - rewrite override_scan_S, Hscan. unfold override_body.
    rewrite Ht, override_model_returns.
    assert (Hv : pass (returning h)
                   (Returned (returned_model (INR (n + 1) * dt)
                                default_qubits default_S (override_vol n)
                                default_r)) st n
                 = Returned
                     (mkCell (t st + dt)
                        (results st ++ [fst (override_value h n)])
                        (conf_list st ++ [snd (override_value h n)]))).
    { unfold pass, returning, override_value, returned_model.
      cbv beta iota zeta. cbn [fst snd].
      match goal with
      | |- context [h n ?a ?b ?c] => destruct (h n a b c) as [res conf]
      end.
      reflexivity. }
    rewrite Hv. eexists. split; [reflexivity |].
    cbn [t results conf_list]. split; [| split].
    + rewrite Ht. replace (S n + 1)%nat with (S (n + 1)) by lia.
      rewrite S_INR. ring.
    + rewrite seq_S, map_app, Hr. reflexivity.
    + rewrite seq_S, map_app, Hc. reflexivity.
Qed.

End Cells.

(** The variance of the log-price that the model of loop index [i]
    carries. *)
Lemma override_model_sigma (i : nat) :
  sigma (fst (fst (returned_model (INR (i + 1) * dt) default_qubits
                     default_S (override_vol i) default_r)))
  = override_vol i ^ 2 * (INR (i + 1) / 365).
Proof.
  rewrite returned_model_sigma by (apply Rlt_le, day_time_pos).
  unfold dt. field.
Qed.

(** Day 22 (index 21) has the widest distribution of the forty. *)
Lemma widest_day (i : nat) :
  (i < 40)%nat -> i <> 21%nat ->
  override_vol i ^ 2 * (INR (i + 1) / 365)
  < override_vol 21 ^ 2 * (INR (21 + 1) / 365).
Proof.
  intros Hi Hne.
  assert (H21 : override_vol 21 = 0.9) by reflexivity.
  assert (H22 : INR (21 + 1) = 22) by (simpl; lra).
  rewrite H21, H22.
  destruct (Nat.eq_dec i 20) as [-> | H20].
  - assert (Hv : override_vol 20 = 0.9) by reflexivity.
    assert (Hn : INR (20 + 1) = 21) by (simpl; lra).
    rewrite Hv, Hn. lra.
  - destruct (override_vol_cases i) as [_ Hv]. rewrite (Hv H20 Hne).
    assert (Hle : INR (i + 1) <= 40).
    { replace 40 with (INR 40) by (simpl; lra). apply le_INR. lia. }
    pose proof (pos_INR (i + 1)). lra.
Qed.


Lemma classical_override_scan_S (n : nat) (g : Sampling.rng) :
  classical_override_scan (S n) g
  = classical_override_body (classical_override_scan n g) n.
Proof.
  unfold classical_override_scan. now rewrite seq_S, fold_left_app.
Qed.

Lemma default_steps_pos : (0 < Sampling.default_steps)%nat.
Proof. unfold Sampling.default_steps. lia. Qed.

Lemma rng_at_S (g : Sampling.rng) (n k : nat) :
  rng_at g n (Sampling.default_steps * Sampling.default_N + k)%nat
  = rng_at g (S n) k.
Proof. unfold rng_at. f_equal. lia. Qed.

(** The classical cell never stops on an exception; after [n] rounds its
    list holds the prices of the calls [classical_day_call] of the days
    so far, and the generator has moved on by [n] calls' worth of
    draws. *)
Lemma classical_override_scan_state (n : nat) (g : Sampling.rng) :
  exists st,
    classical_override_scan n g = Returned st /\
    c_t st = INR (n + 1) * dt /\
    (forall k, c_rng st k = rng_at g n k) /\
    map Returned (c_results st)
    = map (fun i => fst (classical_day_call g i)) (seq 0 n).
Proof.
  induction n as [| n (st & Hscan & Ht & Hg & Hr)].
  - eexists. split; [reflexivity |]. cbn [c_t c_rng c_results].
    split; [simpl; lra | split; [intros k; reflexivity | reflexivity]].
  - rewrite classical_override_scan_S, Hscan.
    unfold classical_override_body.
    assert (Hcall :
      (if (n =? 20)%nat || (n =? 21)%nat
       then Sampling.get_price_call (c_t st) Sampling.default_S
              Sampling.default_K_call Sampling.default_r
              Sampling.default_q 0.9 Sampling.default_steps
              Sampling.default_N (c_rng st)
       else Sampling.get_price_call (c_t st) Sampling.default_S
              Sampling.default_K_call Sampling.default_r
              Sampling.default_q Sampling.default_sigma
              Sampling.default_steps Sampling.default_N (c_rng st))
      = Sampling.get_price_call (c_t st) Sampling.default_S
          Sampling.default_K_call Sampling.default_r Sampling.default_q
          (override_vol n) Sampling.default_steps Sampling.default_N
          (c_rng st)).
    { unfold override_vol.
      now destruct ((n =? 20)%nat || (n =? 21)%nat). }
    rewrite Hcall, Ht. clear Hcall.
    pose proof (SamplingFacts.get_price_call_ext (c_t st)
                  Sampling.default_S Sampling.default_K_call
                  Sampling.default_r Sampling.default_q (override_vol n)
                  Sampling.default_steps Sampling.default_N
                  (c_rng st) (rng_at g n) default_steps_pos
                  (fun k _ => Hg k)) as Hext.
    rewrite Ht in Hext. fold (classical_day_call g n) in Hext.
    rewrite SamplingFacts.get_price_call_eq in * by apply default_steps_pos.
    cbn [fst] in Hext.
    eexists. split; [reflexivity |]. cbn [c_t c_rng c_results].
    split; [| split].
    + replace (S n + 1)%nat with (S (n + 1)) by lia.
      rewrite S_INR. ring.
    + intros k. rewrite Hg. apply rng_at_S.
    + rewrite seq_S, !map_app, Hr. cbn [map Nat.add]. now rewrite Hext.
Qed.

Lemma some_inj {X : Type} (a b : X) : Some a = Some b -> a = b.
Proof. intros H. now injection H. Qed.

Lemma nth_error_tabulated {X : Type} (f : nat -> X) (n k : nat) :
  (k < n)%nat -> nth_error (map f (seq 0 n)) k = Some (f k).
Proof.
  intros Hk. apply map_nth_error.
  rewrite (nth_error_nth' (seq 0 n) 0%nat) by (now rewrite length_seq).
  now rewrite seq_nth.
Qed.


Lemma returned_inj {X : Type} (a b : X) : Returned a = Returned b -> a = b.
Proof. intros H. now injection H. Qed.


End ScanFacts.


(** ** The uncertainty model in closed form *)

Module UncertaintyMore.
Import Uncertainty UncertaintyFacts.

Lemma sigma_squared (t vol : R) :
  0 <= t -> (vol * sqrt t) ^ 2 = vol ^ 2 * t.
Proof.
  intros Ht.
  replace ((vol * sqrt t) ^ 2) with (vol ^ 2 * (sqrt t * sqrt t)) by ring.
  now rewrite sqrt_sqrt.
Qed.

Lemma exp_sigma_ge_1 (t vol : R) : 0 <= t -> 1 <= exp (vol ^ 2 * t).
Proof.
  intros Ht. rewrite <- exp_0.
  destruct (Req_dec (vol ^ 2 * t) 0) as [-> | Hne]; [lra |].
  apply Rlt_le, exp_increasing.
  assert (0 <= vol ^ 2 * t) by (apply Rmult_le_pos; [apply pow2_ge_0 | lra]).
  lra.
Qed.

(** Mean, variance and standard deviation in terms of the forward price
    [S * exp (r * t)] and of [exp (vol^2 * t)]. *)
Lemma body_closed_form (t S vol r : R) :
  0 <= t -> 0 < S ->
  let v := body t S vol r in
  let M := S * exp (r * t) in
  let s := sqrt (exp (vol ^ 2 * t) - 1) in
  l_mean v = M /\
  l_variance v = (exp (vol ^ 2 * t) - 1) * (M * M) /\
  l_stddev v = M * s /\
  l_low v = Rmax 0 (M * (1 - 3 * s)) /\
  l_high v = M * (1 + 3 * s).
Proof.
  intros Ht HS v M s.
  assert (HM : l_mean v = M) by (apply body_mean_forward; assumption).
  assert (HMpos : 0 < M)
    by (apply Rmult_lt_0_compat; [assumption | apply exp_pos]).
  assert (Hvar : l_variance v = (exp (vol ^ 2 * t) - 1) * (M * M)).
  { subst v M. unfold body; cbn [l_variance].
    rewrite sigma_squared by assumption. f_equal.
    replace (2 * ((r - 0.5 * vol ^ 2) * t + ln S) + vol ^ 2 * t)
      with ((ln S + r * t) + (ln S + r * t)) by (simpl; lra).
    now rewrite !exp_plus, exp_ln. }
  assert (Hsd : l_stddev v = M * s).
  { change (l_stddev v) with (sqrt (l_variance v)). rewrite Hvar.
    rewrite sqrt_mult.
    - rewrite sqrt_square by lra. subst s. ring.
    - pose proof (exp_sigma_ge_1 t vol Ht). lra.
    - nra. }
  split; [assumption | split; [assumption | split; [assumption |]]].
  change (l_low v) with (Rmax 0 (l_mean v - 3 * l_stddev v)).
  change (l_high v) with (l_mean v + 3 * l_stddev v).
  rewrite HM, Hsd. split; [f_equal |]; ring.
Qed.

(** X1: for t >= 0 and S > 0, a call that returns hands back a range
    centred on the forward price M = S * exp (r * t) whatever the
    volatility: high = M * (1 + 3 * s) and low = max (0, M * (1 - 3 * s))
    with s = sqrt (exp (vol^2 * t) - 1) > 0, so that low <= M <= high and
    low < high, and the distribution has received the log-variance
    vol^2 * t as its [sigma]. *)
Theorem get_uncertainty_model_closed_form (t S vol r : R) (n : nat)
    (um : LogNormalDistribution) (low high : R) :
  0 <= t -> 0 < S ->
  get_uncertainty_model t n S vol r = Returned (um, low, high) ->
  let M := S * exp (r * t) in
  let s := sqrt (exp (vol ^ 2 * t) - 1) in
  low = Rmax 0 (M * (1 - 3 * s)) /\
  high = M * (1 + 3 * s) /\
  um = mkLogNormal n ((r - 0.5 * vol ^ 2) * t + ln S) (vol ^ 2 * t)
         (low, high) /\
  low <= M <= high /\
  low < high /\
  0 < s.
Proof.
  intros Ht HS H M s.
  destruct (returned_triple t S vol r n um low high H)
    as (Hum & Hlow & Hhigh & Hlt).
  destruct (body_closed_form t S vol r Ht HS) as (_ & _ & _ & Hl & Hh).
  fold M s in Hl, Hh.
  assert (HMpos : 0 < M)
    by (apply Rmult_lt_0_compat; [assumption | apply exp_pos]).
  assert (Hs : 0 <= s) by apply sqrt_pos.
  rewrite Hl in Hlow. rewrite Hh in Hhigh.
  split; [exact Hlow |]. split; [exact Hhigh |].
  split.
  { rewrite Hum, Hl, Hh, <- Hlow, <- Hhigh.
    change (l_sigma (body t S vol r)) with (vol * sqrt t).
    rewrite sigma_squared by assumption. reflexivity. }
  split.
  { rewrite Hlow, Hhigh. split; [apply Rmax_lub; nra | nra]. }
  split; [exact Hlt |].
  destruct Hs as [Hpos | Hz]; [exact Hpos | exfalso].
  rewrite Hlow, Hhigh, <- Hz in Hlt.
  replace (M * (1 - 3 * 0)) with M in Hlt by ring.
  replace (M * (1 + 3 * 0)) with M in Hlt by ring.
  rewrite Rmax_right in Hlt by lra. lra.
Qed.

Lemma get_uncertainty_model_closed_form_witness :
  let m := returned_model (1 / 365) 3 2 0.4 0 in
  snd (fst m) < snd m.
Proof.
  intros m.
  assert (H : get_uncertainty_model (1 / 365) 3 2 0.4 0
              = Returned (fst (fst m), snd (fst m), snd m))
    by (apply get_uncertainty_model_returns_pos; lra).
  exact (proj1 (proj2 (proj2 (proj2 (proj2
           (get_uncertainty_model_closed_form (1 / 365) 2 0.4 0 3
              (fst (fst m)) (snd (fst m)) (snd m)
              ltac:(lra) ltac:(lra) H)))))).
Defined.

(** X2: on a returned range, the clamp [np.maximum(0, .)] on the lower
    bound is active exactly when exp (vol^2 * t) >= 10/9.  Below that,
    and in particular whenever vol^2 * t < 1/10, the lower bound is
    positive and the range is symmetric about the forward price:
    low + high = 2 * S * exp (r * t). *)
Theorem lower_bound_clamped_iff (t S vol r : R) (n : nat)
    (um : LogNormalDistribution) (low high : R) :
  0 <= t -> 0 < S ->
  get_uncertainty_model t n S vol r = Returned (um, low, high) ->
  (low = 0 <-> 10 / 9 <= exp (vol ^ 2 * t)) /\
  (exp (vol ^ 2 * t) < 10 / 9 ->
   0 < low /\ low + high = 2 * (S * exp (r * t))) /\
  (vol ^ 2 * t < 1 / 10 ->
   0 < low /\ low + high = 2 * (S * exp (r * t))).
Proof.
  intros Ht HS H.
  destruct (returned_triple t S vol r n um low high H)
    as (_ & Hlow & Hhigh & _).
  destruct (body_closed_form t S vol r Ht HS) as (_ & _ & _ & Hl & Hh).
  rewrite <- Hlow in Hl. rewrite <- Hhigh in Hh. clear Hlow Hhigh H.
  set (M := S * exp (r * t)) in *.
  set (e := exp (vol ^ 2 * t)) in *.
  assert (HMpos : 0 < M)
    by (apply Rmult_lt_0_compat; [assumption | apply exp_pos]).
  assert (He : 0 <= e - 1)
    by (pose proof (exp_sigma_ge_1 t vol Ht) as H1; fold e in H1; lra).
  assert (Hs : 0 <= sqrt (e - 1)) by apply sqrt_pos.
  assert (Hss : sqrt (e - 1) * sqrt (e - 1) = e - 1) by now apply sqrt_sqrt.
  assert (Hthird : 1 <= 3 * sqrt (e - 1) <-> 10 / 9 <= e) by (split; nra).
  assert (Hbelow : e < 10 / 9 -> 0 < low /\ low + high = 2 * M).
  { intros Hlt.
    assert (H3 : 3 * sqrt (e - 1) < 1).
    { destruct (Rlt_or_le (3 * sqrt (e - 1)) 1) as [? | Hge];
        [assumption |]. apply Hthird in Hge. lra. }
    rewrite Hl, Hh. rewrite Rmax_right by nra. split; [nra | ring]. }
  split; [| split].
  - rewrite Hl. split.
    + intros H0. apply Hthird.
      pose proof (Rmax_r 0 (M * (1 - 3 * sqrt (e - 1)))) as Hr.
      rewrite H0 in Hr. nra.
    + intros H. apply Rmax_left. apply Hthird in H. nra.
  - exact Hbelow.
  - intros Hx. apply Hbelow. subst e.
    assert (Hx0 : 0 <= vol ^ 2 * t)
      by (apply Rmult_le_pos; [apply pow2_ge_0 | lra]).
    pose proof (exp_ineq1_le (- (vol ^ 2 * t))) as Hneg.
    rewrite exp_Ropp in Hneg.
    pose proof (exp_pos (vol ^ 2 * t)) as Hpos.
    assert (Hprod : exp (vol ^ 2 * t) * / exp (vol ^ 2 * t) = 1)
      by (apply Rinv_r; lra).
    nra.
Qed.

Lemma lower_bound_clamped_iff_witness :
  let m := returned_model (22 / 365) 3 2 0.9 0 in
  0 < snd (fst m) /\ snd (fst m) + snd m = 2 * (2 * exp (0 * (22 / 365))).
Proof.
  intros m.
  assert (H : get_uncertainty_model (22 / 365) 3 2 0.9 0
              = Returned (fst (fst m), snd (fst m), snd m))
    by (apply get_uncertainty_model_returns_pos; lra).
  apply (proj2 (proj2
           (lower_bound_clamped_iff (22 / 365) 2 0.9 0 3
              (fst (fst m)) (snd (fst m)) (snd m)
              ltac:(lra) ltac:(lra) H))).
  simpl. lra.
Defined.

(** X3: a higher volatility leaves the centre of the range where it is
    and widens the range on both sides: when the calls at the
    volatilities 0 <= vol1 <= vol2 both return, the upper bound of the
    second is not below and its lower bound not above that of the first,
    and the upper bound is strictly larger when vol1 < vol2. *)
Theorem range_widens_with_volatility (t S vol1 vol2 r : R) (n : nat)
    (um1 um2 : LogNormalDistribution) (low1 high1 low2 high2 : R) :
  0 <= t -> 0 < S -> 0 <= vol1 <= vol2 ->
  get_uncertainty_model t n S vol1 r = Returned (um1, low1, high1) ->
  get_uncertainty_model t n S vol2 r = Returned (um2, low2, high2) ->
  high1 <= high2 /\
  low2 <= low1 /\
  (vol1 < vol2 -> high1 < high2) /\
  low1 <= S * exp (r * t) <= high1 /\
  low2 <= S * exp (r * t) <= high2.
Proof.
  intros Ht HS [Hv1 Hv12] H1 H2.
  destruct (get_uncertainty_model_returned_pos t S vol1 r n _ Ht HS H1)
    as [Htpos _].
  destruct (returned_triple t S vol1 r n um1 low1 high1 H1)
    as (_ & Hlow1 & Hhigh1 & _).
  destruct (returned_triple t S vol2 r n um2 low2 high2 H2)
    as (_ & Hlow2 & Hhigh2 & _).
  destruct (body_closed_form t S vol1 r Ht HS) as (_ & _ & _ & Hl1 & Hh1).
  destruct (body_closed_form t S vol2 r Ht HS) as (_ & _ & _ & Hl2 & Hh2).
  rewrite <- Hlow1 in Hl1. rewrite <- Hhigh1 in Hh1.
  rewrite <- Hlow2 in Hl2. rewrite <- Hhigh2 in Hh2.
  clear Hlow1 Hhigh1 Hlow2 Hhigh2 H1 H2.
  set (M := S * exp (r * t)) in *.
  assert (HMpos : 0 < M)
    by (apply Rmult_lt_0_compat; [assumption | apply exp_pos]).
  pose proof (exp_sigma_ge_1 t vol1 Ht) as He1.
  pose proof (exp_sigma_ge_1 t vol2 Ht) as He2.
  assert (Hsq : vol1 ^ 2 * t <= vol2 ^ 2 * t).
  { apply Rmult_le_compat_r; [assumption | simpl; nra]. }
  assert (Hexp : exp (vol1 ^ 2 * t) <= exp (vol2 ^ 2 * t)).
  { destruct Hsq as [Hlt | ->]; [apply Rlt_le, exp_increasing, Hlt | lra]. }
  assert (Hs : sqrt (exp (vol1 ^ 2 * t) - 1)
               <= sqrt (exp (vol2 ^ 2 * t) - 1)).
  { apply sqrt_le_1; lra. }
  assert (Hs1 : 0 <= sqrt (exp (vol1 ^ 2 * t) - 1)) by apply sqrt_pos.
  assert (Hs2 : 0 <= sqrt (exp (vol2 ^ 2 * t) - 1)) by apply sqrt_pos.
  rewrite Hh1, Hh2, Hl1, Hl2.
  split; [nra |]. split.
  { apply Rmax_lub; [apply Rmax_l |].
    apply Rle_trans with (M * (1 - 3 * sqrt (exp (vol1 ^ 2 * t) - 1)));
      [nra | apply Rmax_r]. }
  split.
  { intros Hlt.
    assert (Hsq' : vol1 ^ 2 * t < vol2 ^ 2 * t).
    { apply Rmult_lt_compat_r; [assumption | simpl; nra]. }
    assert (Hs' : sqrt (exp (vol1 ^ 2 * t) - 1)
                  < sqrt (exp (vol2 ^ 2 * t) - 1)).
    { apply sqrt_lt_1; try lra.
      pose proof (exp_increasing _ _ Hsq'). lra. }
    nra. }
  split; (split; [apply Rmax_lub; nra | nra]).
Qed.

Lemma range_widens_with_volatility_witness :
  let m1 := returned_model (21 / 365) 3 2 0.4 0 in
  let m2 := returned_model (21 / 365) 3 2 0.9 0 in
  snd m1 < snd m2.
Proof.
  intros m1 m2.
  assert (H1 : get_uncertainty_model (21 / 365) 3 2 0.4 0
               = Returned (fst (fst m1), snd (fst m1), snd m1))
    by (apply get_uncertainty_model_returns_pos; lra).
  assert (H2 : get_uncertainty_model (21 / 365) 3 2 0.9 0
               = Returned (fst (fst m2), snd (fst m2), snd m2))
    by (apply get_uncertainty_model_returns_pos; lra).
  apply (proj1 (proj2 (proj2
           (range_widens_with_volatility (21 / 365) 2 0.4 0.9 0 3
              (fst (fst m1)) (fst (fst m2))
              (snd (fst m1)) (snd m1) (snd (fst m2)) (snd m2)
              ltac:(lra) ltac:(lra) ltac:(lra) H1 H2)))).
  lra.
Defined.

End UncertaintyMore.

(** ** The objective of the put, over its whole domain *)

Module EstimationMore.
Import Estimation EstimationFacts.

(** X4: an objective of the put that has been constructed (which takes
    low < K <= high) is max (K - x, 0) on its domain [low, high]; it
    takes its values in the image the helper declares,
    [f_min, f_max] = [0, K - low], reaches f_max at x = low and f_min at
    x = high, and does not increase with the price. *)
Theorem put_objective_within_image (low high K c x y : R) (n : nat)
    (f : LinearAmplitudeFunction) :
  european_put_objective low high n K c = Returned f ->
  low <= x <= high -> x <= y <= high ->
  low < K <= high /\
  domain f = (low, high) /\
  image f = (0, K - low) /\
  objective_value f x = Rmax (K - x) 0 /\
  fst (image f) <= objective_value f x <= snd (image f) /\
  objective_value f low = snd (image f) /\
  objective_value f high = fst (image f) /\
  objective_value f y <= objective_value f x.
Proof.
  intros Hf [Hlx Hxh] [Hxy Hyh].
  destruct (european_put_objective_inv low high K c n f Hf) as [[H1 H2] E].
  rewrite !(put_objective_value low high K c _ n f Hf) by lra.
  subst f. cbn [image domain fst snd].
  split; [split; assumption |].
  split; [reflexivity |]. split; [reflexivity |]. split; [reflexivity |].
  split; [split; [apply Rmax_r | apply Rmax_lub; lra] |].
  split; [apply Rmax_left; lra |].
  split; [apply Rmax_right; lra |].
  apply Rmax_lub; [| apply Rmax_r].
  apply Rle_trans with (K - x); [lra | apply Rmax_l].
Qed.

Lemma put_objective_within_image_witness :
  let f := mkObjective 3 [-1; 0] [2.1 - 1.8; 0] (1.8, 2.2) (0, 2.1 - 1.8)
             [1.8; 2.1] 0.25 in
  objective_value f 2.1 <= objective_value f 2.
Proof.
  intros f.
  assert (Hf : european_put_objective 1.8 2.2 3 2.1 0.25 = Returned f)
    by (apply european_put_objective_returns; lra).
  apply (put_objective_within_image 1.8 2.2 2.1 0.25 2 2.1 3 f Hf); lra.
Defined.

End EstimationMore.

(** ** The array of paths and further properties of the prices *)

Module SamplingMore.
Import Sampling SamplingFacts Paths.

(** *** Rows of the running sum *)










(** *** Means of tabulated payoffs *)

Lemma np_sum_plus (f h : nat -> R) (js : list nat) :
  np_sum (map (fun j => f j + h j) js)
  = np_sum (map f js) + np_sum (map h js).
Proof.
  unfold np_sum. induction js as [| j js IH]; simpl; [ring |].
  rewrite IH. ring.
Qed.

Lemma np_sum_const (c : R) (js : list nat) :
  np_sum (map (fun _ => c) js) = INR (length js) * c.
Proof.
  unfold np_sum. induction js as [| j js IH].
  - simpl. ring.
  - cbn [map fold_right length]. rewrite IH, S_INR. ring.
Qed.

Lemma np_mean_plus (f h : nat -> R) (js : list nat) :
  np_mean (map (fun j => f j + h j) js)
  = np_mean (map f js) + np_mean (map h js).
Proof.
  unfold np_mean. rewrite !length_map, np_sum_plus. unfold Rdiv. ring.
Qed.

Lemma np_mean_scale_l (c : R) (f : nat -> R) (js : list nat) :
  np_mean (map (fun j => c * f j) js) = c * np_mean (map f js).
Proof. rewrite np_mean_scale. ring. Qed.

Lemma np_mean_const (c : R) (js : list nat) :
  js <> [] -> np_mean (map (fun _ => c) js) = c.
Proof.
  intros Hne. unfold np_mean. rewrite length_map, np_sum_const.
  assert (Hn : 0 < INR (length js)).
  { apply lt_0_INR. destruct js; [contradiction | simpl; lia]. }
  field. lra.
Qed.

Lemma np_mean_ext (f h : nat -> R) (js : list nat) :
  (forall j, f j = h j) -> np_mean (map f js) = np_mean (map h js).
Proof. intros H. f_equal. now apply map_ext. Qed.

Lemma seq_nonempty (N : nat) : (0 < N)%nat -> seq 0 N <> [].
Proof. intros HN. destruct N; [lia | discriminate]. Qed.

Lemma terminal_price_pos (T S r q sigma : R) (steps N : nat) (g : rng)
    (j : nat) :
  0 < terminal_price T S r q sigma steps N g j.
Proof. apply exp_pos. Qed.

(** X6: put-call parity on the draws of one call.  Priced in the same
    generator state, the call and the put differ by the discounted
    difference between the mean terminal price and the strike. *)
Theorem put_call_parity_on_draws
    (T S K r q sigma : R) (steps N : nat) (g : rng) :
  0 < T -> 0 < S -> (0 < steps)%nat -> (0 < N)%nat ->
  exists c p,
    fst (get_price_call T S K r q sigma steps N g) = Returned c /\
    fst (get_price_put T S K r q sigma steps N g) = Returned p /\
    c - p
    = exp (- r * T)
      * (np_mean (terminal_prices T S r q sigma steps N g) - K).
Proof.
  intros _ _ Hsteps HN.
  rewrite get_price_call_eq, get_price_put_eq by assumption. cbn [fst].
  do 2 eexists. split; [reflexivity | split; [reflexivity |]].
  unfold call_payoffs, put_payoffs, terminal_prices.
  set (x := terminal_price T S r q sigma steps N g).
  assert (Hmean : np_mean (map (fun j => Rmax (x j - K) 0) (seq 0 N))
                  = np_mean (map (fun j => Rmax (K - x j) 0) (seq 0 N))
                    + (np_mean (map x (seq 0 N)) - K)).
  { rewrite (np_mean_ext (fun j => Rmax (x j - K) 0)
               (fun j => Rmax (K - x j) 0 + (x j + - K))).
    - rewrite np_mean_plus, (np_mean_plus x (fun _ => - K)).
      rewrite np_mean_const by now apply seq_nonempty. ring.
    - intros j. unfold Rmax.
      destruct (Rle_dec (x j - K) 0); destruct (Rle_dec (K - x j) 0); lra. }
  rewrite Hmean. ring.
Qed.

Lemma put_call_parity_on_draws_witness :
  exists c p,
    fst (get_price_call 1 2 1.896 0 0 0.4 2 3 (fun k => INR k))
      = Returned c /\
    fst (get_price_put 1 2 1.896 0 0 0.4 2 3 (fun k => INR k))
      = Returned p /\
    c - p
    = exp (- 0 * 1)
      * (np_mean (terminal_prices 1 2 0 0 0.4 2 3 (fun k => INR k)) - 1.896).
Proof.
  apply (put_call_parity_on_draws 1 2 1.896 0 0 0.4 2 3 (fun k => INR k));
    try lra; lia.
Defined.

(** X7: with zero volatility the draws do not matter: every path ends at
    the forward price S * exp ((r - q) * T), and the pricers return the
    discounted payoff at that price. *)
Theorem zero_volatility_price
    (T S K r q : R) (steps N : nat) (g : rng) :
  0 < T -> 0 < S -> (0 < steps)%nat -> (0 < N)%nat ->
  fst (get_price_call T S K r q 0 steps N g)
    = Returned (Rmax (S * exp ((r - q) * T) - K) 0 * exp (- r * T)) /\
  fst (get_price_put T S K r q 0 steps N g)
    = Returned (Rmax (K - S * exp ((r - q) * T)) 0 * exp (- r * T)).
Proof.
  intros _ HS Hsteps HN.
  assert (Hn : 0 < INR steps) by (apply lt_0_INR; assumption).
  assert (Hx : forall j,
            terminal_price T S r q 0 steps N g j = S * exp ((r - q) * T)).
  { intros j. unfold terminal_price.
    rewrite (np_sum_ext_in _ (fun _ => (r - q) * (T / INR steps))).
    - rewrite np_sum_const, length_seq, exp_plus, exp_ln by assumption.
      do 2 f_equal. field. lra.
    - intros i _. replace (0 ^ 2) with 0 by (simpl; ring).
      unfold Rdiv. ring. }
  rewrite get_price_call_eq, get_price_put_eq by assumption. cbn [fst].
  unfold call_payoffs, put_payoffs. split; do 2 f_equal.
  - rewrite (np_mean_ext _ (fun _ => Rmax (S * exp ((r - q) * T) - K) 0))
      by (intros j; now rewrite Hx).
    apply np_mean_const. now apply seq_nonempty.
  - rewrite (np_mean_ext _ (fun _ => Rmax (K - S * exp ((r - q) * T)) 0))
      by (intros j; now rewrite Hx).
    apply np_mean_const. now apply seq_nonempty.
Qed.

Lemma zero_volatility_price_witness :
  fst (get_price_call 1 2 1.896 0 0 0 2 3 (fun k => INR k))
  = Returned (Rmax (2 * exp ((0 - 0) * 1) - 1.896) 0 * exp (- 0 * 1)).
Proof.
  apply (zero_volatility_price 1 2 1.896 0 0 2 3 (fun k => INR k));
    try lra; lia.
Defined.

Lemma np_mean_shift_le (f h : nat -> R) (b : R) (js : list nat) :
  js <> [] -> (forall j, f j <= h j + b) ->
  np_mean (map f js) <= np_mean (map h js) + b.
Proof.
  intros Hne H.
  apply Rle_trans with (np_mean (map (fun j => h j + b) js)).
  - now apply np_mean_tabulated_le.
  - rewrite np_mean_plus, np_mean_const by assumption. lra.
Qed.

(** X8: on fixed draws the prices are Lipschitz in the strike: moving
    the strike by d moves the price of the call, and that of the put, by
    at most exp (- r * T) * d. *)
Theorem get_price_lipschitz_in_strike
    (T S K1 K2 r q sigma : R) (steps N : nat) (g : rng) :
  0 < T -> 0 < S -> (0 < steps)%nat -> (0 < N)%nat ->
  exists c1 c2 p1 p2,
    fst (get_price_call T S K1 r q sigma steps N g) = Returned c1 /\
    fst (get_price_call T S K2 r q sigma steps N g) = Returned c2 /\
    fst (get_price_put T S K1 r q sigma steps N g) = Returned p1 /\
    fst (get_price_put T S K2 r q sigma steps N g) = Returned p2 /\
    Rabs (c1 - c2) <= exp (- r * T) * Rabs (K1 - K2) /\
    Rabs (p1 - p2) <= exp (- r * T) * Rabs (K1 - K2).
Proof.
  intros _ _ Hsteps HN.
  rewrite !get_price_call_eq, !get_price_put_eq by assumption. cbn [fst].
  do 4 eexists. do 4 (split; [reflexivity |]).
  unfold call_payoffs, put_payoffs.
  set (x := terminal_price T S r q sigma steps N g).
  pose proof (exp_pos (- r * T)) as Hd.
  pose proof (seq_nonempty N HN) as Hne.
  assert (Hcall : forall K K',
            np_mean (map (fun j => Rmax (x j - K) 0) (seq 0 N))
            <= np_mean (map (fun j => Rmax (x j - K') 0) (seq 0 N))
               + Rabs (K - K')).
  { intros K K'. apply np_mean_shift_le; [assumption |]. intros j.
    unfold Rmax, Rabs.
    destruct (Rle_dec (x j - K) 0); destruct (Rle_dec (x j - K') 0);
      destruct (Rcase_abs (K - K')); lra. }
  assert (Hput : forall K K',
            np_mean (map (fun j => Rmax (K - x j) 0) (seq 0 N))
            <= np_mean (map (fun j => Rmax (K' - x j) 0) (seq 0 N))
               + Rabs (K - K')).
  { intros K K'. apply np_mean_shift_le; [assumption |]. intros j.
    unfold Rmax, Rabs.
    destruct (Rle_dec (K - x j) 0); destruct (Rle_dec (K' - x j) 0);
      destruct (Rcase_abs (K - K')); lra. }
  pose proof (Hcall K1 K2) as Hc12. pose proof (Hcall K2 K1) as Hc21.
  pose proof (Hput K1 K2) as Hp12. pose proof (Hput K2 K1) as Hp21.
  rewrite (Rabs_minus_sym K2 K1) in Hc21, Hp21.
  pose proof (Rabs_pos (K1 - K2)) as Habs.
  split; apply Rabs_le; split; nra.
Qed.

Lemma get_price_lipschitz_in_strike_witness :
  exists c1 c2 p1 p2,
    fst (get_price_call 1 2 1.896 0 0 0.4 2 3 (fun k => INR k))
      = Returned c1 /\
    fst (get_price_call 1 2 2.1 0 0 0.4 2 3 (fun k => INR k))
      = Returned c2 /\
    fst (get_price_put 1 2 1.896 0 0 0.4 2 3 (fun k => INR k))
      = Returned p1 /\
    fst (get_price_put 1 2 2.1 0 0 0.4 2 3 (fun k => INR k))
      = Returned p2 /\
    Rabs (c1 - c2) <= exp (- 0 * 1) * Rabs (1.896 - 2.1) /\
    Rabs (p1 - p2) <= exp (- 0 * 1) * Rabs (1.896 - 2.1).
Proof.
  apply (get_price_lipschitz_in_strike 1 2 1.896 2.1 0 0 0.4 2 3
           (fun k => INR k)); try lra; lia.
Defined.

(** X9: bounds on the prices, on any draws.  For a strike K >= 0 the put
    is worth at most the discounted strike and the call at most the
    discounted mean terminal price; the call is worth at least the
    discounted mean terminal price less the strike. *)
Theorem get_price_bounds
    (T S K r q sigma : R) (steps N : nat) (g : rng) :
  0 < T -> 0 < S -> (0 < steps)%nat -> (0 < N)%nat -> 0 <= K ->
  let D := exp (- r * T) in
  let m := np_mean (terminal_prices T S r q sigma steps N g) in
  exists c p,
    fst (get_price_call T S K r q sigma steps N g) = Returned c /\
    fst (get_price_put T S K r q sigma steps N g) = Returned p /\
    D * (m - K) <= c <= D * m /\
    0 <= p <= D * K.
Proof.
  intros _ _ Hsteps HN HK D m. subst D m.
  rewrite get_price_call_eq, get_price_put_eq by assumption. cbn [fst].
  do 2 eexists. split; [reflexivity | split; [reflexivity |]].
  unfold call_payoffs, put_payoffs, terminal_prices.
  set (x := terminal_price T S r q sigma steps N g).
  pose proof (exp_pos (- r * T)) as Hd.
  pose proof (seq_nonempty N HN) as Hne.
  assert (Hx : forall j, 0 < x j) by (intros j; apply terminal_price_pos).
  assert (Hlow : np_mean (map x (seq 0 N))
                 <= np_mean (map (fun j => Rmax (x j - K) 0) (seq 0 N)) + K).
  { apply np_mean_shift_le; [assumption |]. intros j.
    pose proof (Rmax_l (x j - K) 0). lra. }
  assert (Hup : np_mean (map (fun j => Rmax (x j - K) 0) (seq 0 N))
                <= np_mean (map x (seq 0 N))).
  { apply np_mean_tabulated_le. intros j. specialize (Hx j).
    apply Rmax_lub; lra. }
  assert (Hp0 : 0 <= np_mean (map (fun j => Rmax (K - x j) 0) (seq 0 N))).
  { apply np_mean_tabulated_nonneg. intros j. apply Rmax_r. }
  assert (HpK : np_mean (map (fun j => Rmax (K - x j) 0) (seq 0 N)) <= K).
  { apply Rle_trans with (np_mean (map (fun _ => K) (seq 0 N))).
    - apply np_mean_tabulated_le. intros j. specialize (Hx j).
      apply Rmax_lub; lra.
    - rewrite np_mean_const by assumption. lra. }
  repeat split; nra.
Qed.

Lemma get_price_bounds_witness :
  exists c p,
    fst (get_price_call 1 2 1.896 0 0 0.4 2 3 (fun k => INR k))
      = Returned c /\
    fst (get_price_put 1 2 1.896 0 0 0.4 2 3 (fun k => INR k))
      = Returned p /\
    exp (- 0 * 1)
    * (np_mean (terminal_prices 1 2 0 0 0.4 2 3 (fun k => INR k)) - 1.896)
    <= c
    <= exp (- 0 * 1)
       * np_mean (terminal_prices 1 2 0 0 0.4 2 3 (fun k => INR k)) /\
    0 <= p <= exp (- 0 * 1) * 1.896.
Proof.
  apply (get_price_bounds 1 2 1.896 0 0 0.4 2 3 (fun k => INR k));
    try lra; lia.
Defined.

(** X10: on fixed draws both prices are convex in the strike: the price
    at a strike between K1 and K2 is at most the same mixture of the
    prices at K1 and K2. *)
Theorem get_price_convex_in_strike
    (T S K1 K2 lam r q sigma : R) (steps N : nat) (g : rng) :
  0 < T -> 0 < S -> (0 < steps)%nat -> (0 < N)%nat -> 0 <= lam <= 1 ->
  let K := (1 - lam) * K1 + lam * K2 in
  exists c c1 c2 p p1 p2,
    fst (get_price_call T S K r q sigma steps N g) = Returned c /\
    fst (get_price_call T S K1 r q sigma steps N g) = Returned c1 /\
    fst (get_price_call T S K2 r q sigma steps N g) = Returned c2 /\
    fst (get_price_put T S K r q sigma steps N g) = Returned p /\
    fst (get_price_put T S K1 r q sigma steps N g) = Returned p1 /\
    fst (get_price_put T S K2 r q sigma steps N g) = Returned p2 /\
    c <= (1 - lam) * c1 + lam * c2 /\
    p <= (1 - lam) * p1 + lam * p2.
Proof.
  intros _ _ Hsteps HN [Hl0 Hl1] K.
  rewrite !get_price_call_eq, !get_price_put_eq by assumption. cbn [fst].
  do 6 eexists. do 6 (split; [reflexivity |]).
  unfold call_payoffs, put_payoffs.
  set (x := terminal_price T S r q sigma steps N g).
  pose proof (exp_pos (- r * T)) as Hd.
  assert (Hmax : forall a1 a2,
            Rmax ((1 - lam) * a1 + lam * a2) 0
            <= (1 - lam) * Rmax a1 0 + lam * Rmax a2 0).
  { intros a1 a2.
    pose proof (Rmax_l a1 0). pose proof (Rmax_r a1 0).
    pose proof (Rmax_l a2 0). pose proof (Rmax_r a2 0).
    apply Rmax_lub; nra. }
  assert (Hc : np_mean (map (fun j => Rmax (x j - K) 0) (seq 0 N))
               <= (1 - lam)
                  * np_mean (map (fun j => Rmax (x j - K1) 0) (seq 0 N))
                  + lam
                    * np_mean (map (fun j => Rmax (x j - K2) 0) (seq 0 N))).
  { rewrite <- !np_mean_scale_l, <- np_mean_plus.
    apply np_mean_tabulated_le. intros j.
    replace (x j - K) with ((1 - lam) * (x j - K1) + lam * (x j - K2))
      by (subst K; ring).
    apply Hmax. }
  assert (Hp : np_mean (map (fun j => Rmax (K - x j) 0) (seq 0 N))
               <= (1 - lam)
                  * np_mean (map (fun j => Rmax (K1 - x j) 0) (seq 0 N))
                  + lam
                    * np_mean (map (fun j => Rmax (K2 - x j) 0) (seq 0 N))).
  { rewrite <- !np_mean_scale_l, <- np_mean_plus.
    apply np_mean_tabulated_le. intros j.
    replace (K - x j) with ((1 - lam) * (K1 - x j) + lam * (K2 - x j))
      by (subst K; ring).
    apply Hmax. }
  split; nra.
Qed.

Lemma get_price_convex_in_strike_witness :
  exists c c1 c2 p p1 p2,
    fst (get_price_call 1 2 ((1 - 0.5) * 1.896 + 0.5 * 2.1) 0 0 0.4 2 3
           (fun k => INR k)) = Returned c /\
    fst (get_price_call 1 2 1.896 0 0 0.4 2 3 (fun k => INR k))
      = Returned c1 /\
    fst (get_price_call 1 2 2.1 0 0 0.4 2 3 (fun k => INR k))
      = Returned c2 /\
    fst (get_price_put 1 2 ((1 - 0.5) * 1.896 + 0.5 * 2.1) 0 0 0.4 2 3
           (fun k => INR k)) = Returned p /\
    fst (get_price_put 1 2 1.896 0 0 0.4 2 3 (fun k => INR k))
      = Returned p1 /\
    fst (get_price_put 1 2 2.1 0 0 0.4 2 3 (fun k => INR k))
      = Returned p2 /\
    c <= (1 - 0.5) * c1 + 0.5 * c2 /\
    p <= (1 - 0.5) * p1 + 0.5 * p2.
Proof.
  apply (get_price_convex_in_strike 1 2 1.896 2.1 0.5 0 0 0.4 2 3
           (fun k => INR k)); try lra; lia.
Defined.

End SamplingMore.

(** ** The selection as days are added *)

Module SelectorMore.
Import Selector SelectorFacts.

Section Pass.

Context {A : Type}.
Variable ltb : A -> A -> bool.

Lemma amax_from_snoc (l : list A) (x : A) :
  forall best,
    amax_from ltb best (l ++ [x])
    = if ltb (amax_from ltb best l) x then x else amax_from ltb best l.
Proof.
  induction l as [| y l IH]; intros best; [reflexivity |].
  cbn [app amax_from]. apply IH.
Qed.

Lemma argmax_from_snoc (l : list A) (x : A) :
  forall best_i best i,
    argmax_from ltb best_i best i (l ++ [x])
    = if ltb (amax_from ltb best l) x then (i + length l)%nat
      else argmax_from ltb best_i best i l.
Proof.
  induction l as [| y l IH]; intros best_i best i.
  - cbn [app argmax_from amax_from length].
    rewrite Nat.add_0_r. reflexivity.
  - cbn [app argmax_from amax_from length].
    destruct (ltb best y); rewrite IH;
      replace (S i + length l)%nat with (i + S (length l))%nat by lia;
      reflexivity.
Qed.

End Pass.

Lemma Rltb_irrefl (a : R) : Rltb a a = false.
Proof. apply Rltb_false. lra. Qed.

Lemma Rltb_trans (a b c : R) :
  Rltb a b = true -> Rltb b c = true -> Rltb a c = true.
Proof.
  intros H1 H2. apply Rltb_true in H1, H2. apply Rltb_true. lra.
Qed.

Lemma Rltb_neg_trans (a b c : R) :
  Rltb a b = false -> Rltb b c = false -> Rltb a c = false.
Proof.
  intros H1 H2. apply Rltb_false in H1, H2. apply Rltb_false. lra.
Qed.

(** The report on floats: what it returns on a non-empty list. *)
Lemma report_on_floats (results : list R) (conf_list : list (R * R)) :
  results <> [] -> length conf_list = length results ->
  exists k value conf,
    report Rltb results conf_list = Returned (value, conf, (k + 1)%nat) /\
    report_classical Rltb results = Returned (value, (k + 1)%nat) /\
    nth_error results k = Some value /\
    nth_error conf_list k = Some conf /\
    (forall y, In y results -> y <= value) /\
    (forall j y, (j < k)%nat -> nth_error results j = Some y -> y < value).
Proof.
  intros Hne Hlen.
  destruct (report_first_maximum (C := R * R) Rltb Rltb_irrefl Rltb_trans
              Rltb_neg_trans results conf_list Hne Hlen)
    as (k & value & conf & Hr & Hrc & Hn & Hc & Hall & Hbefore).
  exists k, value, conf. repeat split; try assumption.
  - intros y Hy. apply Rltb_false. now apply Hall.
  - intros j y Hj Hy. apply Rltb_true. now apply (Hbefore j).
Qed.

(** X11: the report as the scan grows by one day.  The first day is
    reported as it is.  After that a further day takes over the report,
    with its own interval and index, exactly when its payoff is strictly
    above the maximum so far; otherwise value, interval and day stay as
    they were, ties included. *)
Theorem report_after_one_more_day
    (results : list R) (conf_list : list (R * R))
    (x : R) (c : R * R) (value : R) (conf : R * R) (day : nat) :
  length conf_list = length results ->
  report Rltb results conf_list = Returned (value, conf, day) ->
  report Rltb [x] [c] = Returned (x, c, 1%nat) /\
  report Rltb (results ++ [x]) (conf_list ++ [c])
  = if Rlt_dec value x
    then Returned (x, c, (length results + 1)%nat)
    else Returned (value, conf, day).
Proof.
  intros Hlen Hrep. split; [reflexivity |].
  destruct results as [| r0 rest]; [discriminate |].
  unfold report in *. cbn [app np_amax np_argmax] in *.
  rewrite amax_from_snoc, argmax_from_snoc.
  destruct (nth_error conf_list (argmax_from Rltb 0 r0 1 rest))
    as [ci |] eqn:Hci; [| discriminate].
  injection Hrep as Hv Hc Hd. subst ci. rewrite Hv.
  destruct (Rlt_dec value x) as [Hlt | Hge].
  - assert (Hb : Rltb value x = true) by now apply Rltb_true.
    rewrite !Hb.
    rewrite nth_error_app2 by (rewrite Hlen; simpl; lia).
    replace (1 + length rest - length conf_list)%nat with 0%nat
      by (rewrite Hlen; simpl; lia).
    reflexivity.
  - assert (Hb : Rltb value x = false) by (apply Rltb_false; lra).
    rewrite !Hb.
    rewrite nth_error_app1, Hci, Hd; [reflexivity |].
    apply nth_error_Some. rewrite Hci. discriminate.
Qed.

Lemma report_after_one_more_day_witness :
  report Rltb ([0.1; 0.3] ++ [0.3]) ([(0.0, 0.2); (0.2, 0.4)] ++ [(0.1, 0.5)])
  = if Rlt_dec 0.3 0.3
    then Returned (0.3, (0.1, 0.5), 3%nat)
    else Returned (0.3, (0.2, 0.4), 2%nat).
Proof.
  apply (report_after_one_more_day [0.1; 0.3] [(0.0, 0.2); (0.2, 0.4)]
           0.3 (0.1, 0.5) 0.3 (0.2, 0.4) 2).
  - reflexivity.
  - unfold report, np_amax, np_argmax, amax_from, argmax_from, Rltb.
    destruct (Rlt_dec 0.1 0.3); [reflexivity | lra].
Defined.

End SelectorMore.

(** ** The quantum cells as a whole *)

Module CellsFacts.
Import Uncertainty Scan Cells Selector SelectorFacts SelectorMore.
Import UncertaintyFacts UncertaintyMore ScanFacts.

Lemma uniform_model_returns (i : nat) :
  get_uncertainty_model (INR (i + 1) * dt) default_qubits default_S
    default_vol default_r
  = Returned (returned_model (INR (i + 1) * dt) default_qubits default_S
                default_vol default_r).
Proof.
  apply get_uncertainty_model_returns_pos;
    [apply day_time_pos | unfold default_vol; lra].
Qed.

Lemma uniform_scan_S
    (H : nat -> LogNormalDistribution -> R -> R -> outcome (R * (R * R)))
    (n : nat) :
  uniform_scan H (S n) = uniform_body H (uniform_scan H n) n.
Proof.
  unfold uniform_scan. now rewrite seq_S, fold_left_app.
Qed.

Section Quantum.

Variable h : nat -> LogNormalDistribution -> R -> R -> R * (R * R).

Lemma uniform_day_result_returning (i : nat) :
  uniform_day_result (returning h) i = Returned (uniform_value h i).
Proof.
  unfold uniform_day_result. rewrite uniform_model_returns. reflexivity.
Qed.

Lemma uniform_scan_state (n : nat) :
  exists st,
    uniform_scan (returning h) n = Returned st /\
    t st = INR (n + 1) * dt /\
    results st = map (fun i => fst (uniform_value h i)) (seq 0 n) /\
    conf_list st = map (fun i => snd (uniform_value h i)) (seq 0 n).
Proof.
  induction n as [| n (st & Hscan & Ht & Hr & Hc)].
  - exists initial. split; [reflexivity |].
    cbn [t results conf_list initial seq map].
    split; [simpl; lra | split; reflexivity].
  - rewrite uniform_scan_S, Hscan. unfold uniform_body.
    rewrite Ht, uniform_model_returns.
    assert (Hv : pass (returning h)
                   (Returned (returned_model (INR (n + 1) * dt)
                                default_qubits default_S default_vol
                                default_r)) st n
                 = Returned
                     (mkCell (t st + dt)
                        (results st ++ [fst (uniform_value h n)])
                        (conf_list st ++ [snd (uniform_value h n)]))).
    { unfold pass, returning, uniform_value, returned_model.
      cbv beta iota zeta. cbn [fst snd].
      match goal with
      | |- context [h n ?a ?b ?c] => destruct (h n a b c) as [res conf]
      end.
      reflexivity. }
    rewrite Hv. eexists. split; [reflexivity |].
    cbn [t results conf_list]. split; [| split].
    + rewrite Ht. replace (S n + 1)%nat with (S (n + 1)) by lia.
      rewrite S_INR. ring.
    + rewrite seq_S, map_app, Hr. reflexivity.
    + rewrite seq_S, map_app, Hc. reflexivity.
Qed.

End Quantum.

(** The report on a list of per-day results given by their entries. *)
Lemma report_on_days (day : nat -> R * (R * R)) (n : nat) :
  (0 < n)%nat ->
  exists k,
    (k < n)%nat /\
    report Rltb (map (fun i => fst (day i)) (seq 0 n))
      (map (fun i => snd (day i)) (seq 0 n))
    = Returned (fst (day k), snd (day k), (k + 1)%nat) /\
    (forall i, (i < n)%nat -> fst (day i) <= fst (day k)) /\
    (forall i, (i < k)%nat -> fst (day i) < fst (day k)) /\
    report_classical Rltb (map (fun i => fst (day i)) (seq 0 n))
    = Returned (fst (day k), (k + 1)%nat).
Proof.
  intros Hn.
  destruct (report_on_floats (map (fun i => fst (day i)) (seq 0 n))
              (map (fun i => snd (day i)) (seq 0 n)))
    as (k & value & conf & Hrep & Hrc & Hk & Hc & Hmax & Hfirst).
  - destruct n; [lia | discriminate].
  - now rewrite !length_map.
  - assert (Hkn : (k < length (map (fun i => fst (day i)) (seq 0 n)))%nat)
      by (apply nth_error_Some; rewrite Hk; discriminate).
    rewrite length_map, length_seq in Hkn.
    rewrite (nth_error_tabulated (fun i => fst (day i))) in Hk
      by assumption.
    rewrite (nth_error_tabulated (fun i => snd (day i))) in Hc
      by assumption.
    apply some_inj in Hk. apply some_inj in Hc. subst value conf.
    exists k. split; [assumption |]. split; [assumption |].
    split; [| split; [| assumption]].
    + intros i Hi. apply Hmax. apply nth_error_In with i.
      now apply (nth_error_tabulated (fun i => fst (day i))).
    + intros i Hi. apply (Hfirst i); [assumption |].
      apply (nth_error_tabulated (fun i => fst (day i))). lia.
Qed.

(** X12: a quantum cell and the lines that close it, with a helper whose
    calls return.  Over no day at all the report raises [ValueError];
    over n >= 1 days the cell runs through and the report returns, in
    the cell with uniform and in the cell with raised volatility alike:
    the two lists have grown together, the reported day lies between 1
    and n, and the reported payoff and interval are the two halves of
    what [get_ae_results] returned on that very day. *)
Theorem scan_report_returns
    (h : nat -> LogNormalDistribution -> R -> R -> R * (R * R))
    (n : nat) :
  (0 < n)%nat ->
  (exists e,
     uniform_scan (returning h) 0 = Returned e /\
     report Rltb (results e) (conf_list e) = Raised ValueError) /\
  exists u o,
    uniform_scan (returning h) n = Returned u /\
    override_scan (returning h) n = Returned o /\
    length (results u) = n /\ length (conf_list u) = n /\
    length (results o) = n /\ length (conf_list o) = n /\
    (exists k value conf, (k < n)%nat /\
       uniform_day_result (returning h) k = Returned (value, conf) /\
       report Rltb (results u) (conf_list u)
       = Returned (value, conf, (k + 1)%nat)) /\
    (exists k value conf, (k < n)%nat /\
       day_result (returning h) k = Returned (value, conf) /\
       report Rltb (results o) (conf_list o)
       = Returned (value, conf, (k + 1)%nat)).
Proof.
  intros Hn. split.
  - exists initial. split; reflexivity.
  - destruct (uniform_scan_state h n) as (u & Hu & _ & Hur & Huc).
    destruct (override_scan_state h n) as (o & Ho & _ & Hor & Hoc).
    exists u, o. split; [exact Hu |]. split; [exact Ho |].
    rewrite Hur, Huc, Hor, Hoc, !length_map, !length_seq.
    do 4 (split; [reflexivity |]). split.
    + destruct (report_on_days (uniform_value h) n Hn)
        as (k & Hk & Hrep & _).
      exists k, (fst (uniform_value h k)), (snd (uniform_value h k)).
      split; [exact Hk |]. split; [| exact Hrep].
      rewrite uniform_day_result_returning.
      now destruct (uniform_value h k).
    + destruct (report_on_days (override_value h) n Hn)
        as (k & Hk & Hrep & _).
      exists k, (fst (override_value h k)), (snd (override_value h k)).
      split; [exact Hk |]. split; [| exact Hrep].
      rewrite day_result_returning.
      now destruct (override_value h k).
Qed.

Lemma scan_report_returns_witness :
  exists u o,
    uniform_scan
      (returning (fun _ um _ _ => (sigma um, (sigma um, sigma um)))) 40
    = Returned u /\
    override_scan
      (returning (fun _ um _ _ => (sigma um, (sigma um, sigma um)))) 40
    = Returned o /\
    length (results u) = 40%nat /\ length (results o) = 40%nat.
Proof.
  destruct (proj2 (scan_report_returns
                     (fun _ um _ _ => (sigma um, (sigma um, sigma um))) 40
                     ltac:(lia)))
    as (u & o & Hu & Ho & H1 & _ & H3 & _).
  exists u, o. split; [exact Hu |]. split; [exact Ho |].
  split; [exact H1 | exact H3].
Defined.

(** X13: in the cell with uniform volatility the variance of the
    log-price grows with the day, so for every helper whose calls return
    and whose estimates of the n days are ordered as those variances (as
    the exact expected payoffs are at r = 0), the reported day is the
    last one, n. *)
Theorem uniform_scan_selects_last_day
    (h : nat -> LogNormalDistribution -> R -> R -> R * (R * R))
    (n : nat) :
  (0 < n)%nat ->
  (forall i j mi mj, (i < n)%nat -> (j < n)%nat ->
     get_uncertainty_model (INR (i + 1) * dt) default_qubits default_S
       default_vol default_r = Returned mi ->
     get_uncertainty_model (INR (j + 1) * dt) default_qubits default_S
       default_vol default_r = Returned mj ->
     sigma (fst (fst mi)) < sigma (fst (fst mj)) ->
     fst (h i (fst (fst mi)) (snd (fst mi)) (snd mi))
     < fst (h j (fst (fst mj)) (snd (fst mj)) (snd mj))) ->
  exists u value conf,
    uniform_scan (returning h) n = Returned u /\
    report Rltb (results u) (conf_list u) = Returned (value, conf, n).
Proof.
  intros Hn Hmono.
  destruct (uniform_scan_state h n) as (u & Hu & _ & Hr & Hc).
  exists u. rewrite Hr, Hc.
  destruct (report_on_days (uniform_value h) n Hn)
    as (k & Hk & Hrep & Hmax & _ & _).
  destruct (Nat.eq_dec (k + 1) n) as [<- | Hne].
  - do 2 eexists. split; [exact Hu | exact Hrep].
  - exfalso.
    assert (Hlt : fst (uniform_value h k) < fst (uniform_value h (n - 1))).
    { unfold uniform_value. cbv zeta.
      apply Hmono;
        [assumption | lia | apply uniform_model_returns
        | apply uniform_model_returns |].
      rewrite !returned_model_sigma by (apply Rlt_le, day_time_pos).
      assert (HI : INR (k + 1) < INR (n - 1 + 1)) by (apply lt_INR; lia).
      unfold default_vol, dt. simpl (_ ^ 2). lra. }
    assert (Hle := Hmax (n - 1)%nat ltac:(lia)). lra.
Qed.

Lemma uniform_scan_selects_last_day_witness :
  exists u value conf,
    uniform_scan
      (returning (fun _ um _ _ => (sigma um, (sigma um, sigma um)))) 40
    = Returned u /\
    report Rltb (results u) (conf_list u) = Returned (value, conf, 40%nat).
Proof.
  exact (uniform_scan_selects_last_day
           (fun _ um _ _ => (sigma um, (sigma um, sigma um))) 40
           ltac:(lia) (fun i j mi mj _ _ _ _ H => H)).
Defined.

(** X19: in the cell with two days of raised volatility the variance of
    the log-price is largest on day 22 (loop index 21), the second of
    the two days at 90 %; so for every helper whose calls return and
    whose estimates of the forty days are ordered as those variances (as
    the exact expected payoffs are at r = 0), the reported day is 22.
    On each day the model is built at time day/365, with the volatility
    0.9 on the days 21 and 22 and 0.4 on every other day. *)
Theorem override_scan_selects_day_22
    (h : nat -> LogNormalDistribution -> R -> R -> R * (R * R)) :
  (forall i j mi mj, (i < 40)%nat -> (j < 40)%nat ->
     override_model (INR (i + 1) * dt) i = Returned mi ->
     override_model (INR (j + 1) * dt) j = Returned mj ->
     sigma (fst (fst mi)) < sigma (fst (fst mj)) ->
     fst (h i (fst (fst mi)) (snd (fst mi)) (snd mi))
     < fst (h j (fst (fst mj)) (snd (fst mj)) (snd mj))) ->
  (forall day, (1 <= day <= 40)%nat ->
     day_model day
     = get_uncertainty_model (INR day / 365) default_qubits default_S
         (if (day =? 21)%nat || (day =? 22)%nat then 0.9 else 0.4)
         default_r) /\
  (forall i mi m21, (i < 40)%nat -> i <> 21%nat ->
     override_model (INR (i + 1) * dt) i = Returned mi ->
     override_model (INR (21 + 1) * dt) 21 = Returned m21 ->
     sigma (fst (fst mi)) < sigma (fst (fst m21))) /\
  exists o value conf,
    override_scan (returning h) 40 = Returned o /\
    report Rltb (results o) (conf_list o) = Returned (value, conf, 22%nat).
Proof.
  intros Hmono.
  assert (Hwide : forall i mi m21, (i < 40)%nat -> i <> 21%nat ->
     override_model (INR (i + 1) * dt) i = Returned mi ->
     override_model (INR (21 + 1) * dt) 21 = Returned m21 ->
     sigma (fst (fst mi)) < sigma (fst (fst m21))).
  { intros i mi m21 Hi Hne Hmi Hm21.
    rewrite override_model_returns in Hmi, Hm21.
    apply returned_inj in Hmi. apply returned_inj in Hm21.
    subst mi m21. rewrite !override_model_sigma. now apply widest_day. }
  split; [| split; [exact Hwide |]].
  - intros day Hday. unfold day_model. rewrite override_model_vol.
    replace (INR day * dt) with (INR day / 365) by (unfold dt; field).
    f_equal. unfold override_vol, default_vol.
    destruct day as [| d]; [lia |].
    replace (S d - 1)%nat with d by lia. reflexivity.
  - destruct (override_scan_state h 40) as (o & Ho & _ & Hr & Hc).
    exists o. rewrite Hr, Hc.
    destruct (report_on_days (override_value h) 40 ltac:(lia))
      as (k & Hk & Hrep & Hmax & _ & _).
    destruct (Nat.eq_dec k 21) as [-> | Hne].
    + do 2 eexists. split; [exact Ho | exact Hrep].
    + exfalso.
      assert (Hlt : fst (override_value h k) < fst (override_value h 21)).
      { unfold override_value. cbv zeta.
        apply Hmono;
          [assumption | lia | apply override_model_returns
          | apply override_model_returns |].
        apply (Hwide k _ _ Hk Hne);
          apply override_model_returns. }
      assert (Hle := Hmax 21%nat ltac:(lia)). lra.
Qed.

Lemma override_scan_selects_day_22_witness :
  exists o value conf,
    override_scan
      (returning (fun _ um _ _ => (sigma um, (sigma um, sigma um)))) 40
    = Returned o /\
    report Rltb (results o) (conf_list o) = Returned (value, conf, 22%nat).
Proof.
  exact (proj2 (proj2 (override_scan_selects_day_22
           (fun _ um _ _ => (sigma um, (sigma um, sigma um)))
           (fun i j mi mj _ _ _ _ H => H)))).
Defined.

(** The range of the model at spot 2 and zero rate, for a log-variance
    between that of the first day at 40 % and one tenth. *)
Lemma range_at_defaults (tm vol : R) (n : nat) :
  0 <= tm -> 0.16 / 365 <= vol ^ 2 * tm < 1 / 10 ->
  let m := returned_model tm n default_S vol default_r in
  0 < snd (fst m) < 1.896 /\
  2.1 < snd m /\
  snd (fst m) + snd m = 4.
Proof.
  intros Ht [Hx1 Hx2] m.
  assert (HS : 0 < default_S) by (unfold default_S; lra).
  destruct (body_closed_form tm default_S vol default_r Ht HS)
    as (_ & _ & _ & Hl & Hh).
  change (l_low (body tm default_S vol default_r)) with (snd (fst m)) in Hl.
  change (l_high (body tm default_S vol default_r)) with (snd m) in Hh.
  replace (default_S * exp (default_r * tm)) with 2 in Hl, Hh.
  2:{ replace (default_r * tm) with 0 by (unfold default_r; lra).
      rewrite exp_0. unfold default_S. lra. }
  set (x := vol ^ 2 * tm) in *.
  pose proof (exp_ineq1_le x) as Hlow.
  assert (Hup : exp x < 10 / 9).
  { pose proof (exp_ineq1_le (- x)) as Hneg. rewrite exp_Ropp in Hneg.
    pose proof (exp_pos x) as Hpos.
    assert (Hprod : exp x * / exp x = 1) by (apply Rinv_r; lra).
    nra. }
  set (s := sqrt (exp x - 1)) in *.
  assert (Hs : 0 <= s) by apply sqrt_pos.
  assert (Hss : s * s = exp x - 1) by (apply sqrt_sqrt; lra).
  assert (Hs1 : s < 1 / 3).
  { destruct (Rlt_or_le s (1 / 3)); [assumption | nra]. }
  assert (Hs2 : 0.104 / 6 < s).
  { destruct (Rlt_or_le (0.104 / 6) s); [assumption | nra]. }
  rewrite Hl, Hh. rewrite Rmax_right by nra.
  repeat split; lra.
Qed.

(** X15: on each of the forty days, at the base volatility as on the two
    days at 90 %, the model the quantum cells build is returned, with an
    unclamped, positive lower bound, a range centred on the spot price
    (low + high = 4), and both strikes of the notebooks, 1.896 of the
    call and 2.1 of the put, strictly inside the range; so the helper of
    the put, called on it with its defaults, builds its objective and
    returns. *)
Theorem scanned_days_keep_strikes_inside (i : nat) :
  (i < 40)%nat ->
  let inside := fun m : LogNormalDistribution * R * R =>
    0 < snd (fst m) < 1.896 /\ 2.1 < snd m /\ snd (fst m) + snd m = 4 in
  (exists m, override_model (INR (i + 1) * dt) i = Returned m /\ inside m)
  /\
  (exists m,
     get_uncertainty_model (INR (i + 1) * dt) default_qubits default_S
       default_vol default_r = Returned m /\ inside m) /\
  (forall m estimate run,
     inside m ->
     exists res,
       Estimation.get_ae_results_defaults estimate run (fst (fst m))
         (snd (fst m)) (snd m) = Returned res).
Proof.
  intros Hi inside. subst inside. cbv beta.
  assert (Hday : 1 <= INR (i + 1) <= 40).
  { split.
    - replace 1 with (INR 1) by reflexivity. apply le_INR. lia.
    - replace 40 with (INR 40) by (simpl; lra). apply le_INR. lia. }
  assert (Ht : 0 <= INR (i + 1) * dt) by (unfold dt; nra).
  assert (Hbase : 0.16 / 365 <= 0.4 ^ 2 * (INR (i + 1) * dt) < 1 / 10)
    by (unfold dt; simpl; lra).
  assert (Hhigh : 0.16 / 365 <= 0.9 ^ 2 * (INR (i + 1) * dt) < 1 / 10)
    by (unfold dt; simpl; lra).
  split; [| split].
  - eexists. split; [apply override_model_returns |].
    unfold override_vol, default_vol.
    destruct ((i =? 20)%nat || (i =? 21)%nat).
    + exact (range_at_defaults _ 0.9 default_qubits Ht Hhigh).
    + exact (range_at_defaults _ 0.4 default_qubits Ht Hbase).
  - eexists. split; [apply uniform_model_returns |].
    exact (range_at_defaults _ 0.4 default_qubits Ht Hbase).
  - intros m estimate run ([Hl1 Hl2] & Hh & _).
    unfold Estimation.get_ae_results_defaults, Estimation.get_ae_results.
    rewrite EstimationFacts.european_put_objective_returns
      by (unfold Estimation.default_strike_price; lra).
    eexists. reflexivity.
Qed.

Lemma scanned_days_keep_strikes_inside_witness :
  exists m,
    override_model (INR (21 + 1) * dt) 21 = Returned m /\
    (0 < snd (fst m) < 1.896 /\ 2.1 < snd m /\ snd (fst m) + snd m = 4).
Proof.
  exact (proj1 (scanned_days_keep_strikes_inside 21 ltac:(lia))).
Defined.

End CellsFacts.

(** ** The cells of the classical notebook *)

Module ClassicalFacts.
Import Scan Cells Selector SelectorFacts SelectorMore ScanFacts.
Import Sampling SamplingFacts.

Section Generic.

Variable pricer : R -> R -> rng -> outcome R * rng.
Variable vol_at : nat -> R.
Variable value : R -> R -> rng -> R.

(** The pricer returns, and reads one block of draws. *)
Hypothesis pricer_returns :
  forall T sigma g,
    pricer T sigma g = (Returned (value T sigma g), skip block g).
Hypothesis value_reads_block :
  forall T sigma g g',
    (forall k, (k < block)%nat -> g k = g' k) ->
    value T sigma g = value T sigma g'.

Lemma classical_scan_S (n : nat) (g : rng) :
  classical_scan pricer vol_at (S n) g
  = classical_body pricer vol_at (classical_scan pricer vol_at n g) n.
Proof.
  unfold classical_scan. now rewrite seq_S, fold_left_app.
Qed.

Lemma classical_scan_state (n : nat) (g : rng) :
  exists st,
    classical_scan pricer vol_at n g = Returned st /\
    c_t st = INR (n + 1) * dt /\
    (forall k, c_rng st k = skip (n * block) g k) /\
    c_results st
    = map (fun i => value (INR (i + 1) * dt) (vol_at i)
                      (skip (i * block) g)) (seq 0 n).
Proof.
  induction n as [| n (st & Hscan & Ht & Hg & Hr)].
  - eexists. split; [reflexivity |]. cbn [c_t c_rng c_results].
    split; [simpl; lra | split; [intros k; reflexivity | reflexivity]].
  - rewrite classical_scan_S, Hscan. unfold classical_body.
    rewrite pricer_returns. eexists. split; [reflexivity |].
    cbn [c_t c_rng c_results]. split; [| split].
    + rewrite Ht. replace (S n + 1)%nat with (S (n + 1)) by lia.
      rewrite S_INR. ring.
    + intros k. unfold skip at 1. rewrite Hg. unfold skip. f_equal. lia.
    + rewrite seq_S, map_app, Hr, Ht. cbn [map Nat.add]. do 2 f_equal.
      apply value_reads_block. intros k _. apply Hg.
Qed.

End Generic.

Lemma call_pricer_returns (T sigma : R) (g : rng) :
  call_pricer T sigma g = (Returned (call_value T sigma g), skip block g).
Proof.
  unfold call_pricer. now rewrite get_price_call_eq by apply default_steps_pos.
Qed.

Lemma put_pricer_returns (T sigma : R) (g : rng) :
  put_pricer T sigma g = (Returned (put_value T sigma g), skip block g).
Proof.
  unfold put_pricer. now rewrite get_price_put_eq by apply default_steps_pos.
Qed.

Lemma call_value_reads_block (T sigma : R) (g g' : rng) :
  (forall k, (k < block)%nat -> g k = g' k) ->
  call_value T sigma g = call_value T sigma g'.
Proof.
  intros Hg.
  pose proof (get_price_call_ext T default_S default_K_call default_r
                default_q sigma default_steps default_N g g'
                default_steps_pos Hg) as H.
  rewrite !get_price_call_eq in H by apply default_steps_pos.
  cbn [fst] in H. now apply (f_equal (fun o =>
    match o with Returned v => v | Raised _ => 0 end)) in H.
Qed.

Lemma put_value_reads_block (T sigma : R) (g g' : rng) :
  (forall k, (k < block)%nat -> g k = g' k) ->
  put_value T sigma g = put_value T sigma g'.
Proof.
  intros Hg.
  pose proof (get_price_put_ext T default_S default_K_put default_r
                default_q sigma default_steps default_N g g'
                default_steps_pos Hg) as H.
  rewrite !get_price_put_eq in H by apply default_steps_pos.
  cbn [fst] in H. now apply (f_equal (fun o =>
    match o with Returned v => v | Raised _ => 0 end)) in H.
Qed.

Lemma call_value_nonneg (T sigma : R) (g : rng) : 0 <= call_value T sigma g.
Proof.
  unfold call_value. apply Rmult_le_pos; [| apply Rlt_le, exp_pos].
  apply np_mean_tabulated_nonneg. intros j. apply Rmax_r.
Qed.

Lemma put_value_nonneg (T sigma : R) (g : rng) : 0 <= put_value T sigma g.
Proof.
  unfold put_value. apply Rmult_le_pos; [| apply Rlt_le, exp_pos].
  apply np_mean_tabulated_nonneg. intros j. apply Rmax_r.
Qed.

Lemma classical_override_body_eq (st : outcome classical_state) (i : nat) :
  classical_override_body st i = classical_body call_pricer override_vol st i.
Proof.
  unfold classical_override_body, classical_body, call_pricer, override_vol.
  destruct st as [st | e]; [| reflexivity].
  now destruct ((i =? 20)%nat || (i =? 21)%nat).
Qed.

Lemma classical_override_scan_eq (n : nat) (g : rng) :
  classical_override_scan n g = call_override_scan n g.
Proof.
  unfold classical_override_scan, call_override_scan, classical_scan.
  generalize (Returned (mkClassical dt [] g)).
  induction (seq 0 n) as [| i l IH]; intros st; [reflexivity |].
  cbn [fold_left]. now rewrite classical_override_body_eq, IH.
Qed.

(** X16: every cell of the classical notebook runs through.  With the
    square of the volatility of each day in the range of floats, a scan
    of n days with either pricer raises nothing and returns n prices,
    none negative; the price of day i + 1 is what the pricer returns at
    T = (i + 1)/365 and that day's volatility in the generator state
    reached after i calls, and the generator is left advanced by n
    calls' worth of draws. *)
Theorem classical_cell_runs (vol_at : nat -> R) (n : nat) (g : rng) :
  (forall i, (i < n)%nat -> vol_at i ^ 2 <= float_max) ->
  let runs := fun (pricer : R -> R -> rng -> outcome R * rng) =>
    exists st,
      classical_scan pricer vol_at n g = Returned st /\
      length (c_results st) = n /\
      (forall k, c_rng st k = g (n * block + k)%nat) /\
      (forall i, (i < n)%nat ->
         exists price,
           nth_error (c_results st) i = Some price /\
           0 <= price /\
           fst (pricer (INR (i + 1) * dt) (vol_at i) (skip (i * block) g))
           = Returned price) in
  runs call_pricer /\ runs put_pricer /\
  classical_override_scan n g = call_override_scan n g.
Proof.
  intros _ runs. subst runs. cbv beta.
  split; [| split; [| apply classical_override_scan_eq]].
  - destruct (classical_scan_state call_pricer vol_at call_value
                call_pricer_returns call_value_reads_block n g)
      as (st & Hscan & _ & Hg & Hr).
    exists st. split; [assumption |]. rewrite Hr.
    split; [now rewrite length_map, length_seq |].
    split; [exact Hg |]. intros i Hi. eexists.
    split; [now apply (nth_error_tabulated
              (fun i => call_value (INR (i + 1) * dt) (vol_at i)
                          (skip (i * block) g))) |].
    split; [apply call_value_nonneg |].
    now rewrite call_pricer_returns.
  - destruct (classical_scan_state put_pricer vol_at put_value
                put_pricer_returns put_value_reads_block n g)
      as (st & Hscan & _ & Hg & Hr).
    exists st. split; [assumption |]. rewrite Hr.
    split; [now rewrite length_map, length_seq |].
    split; [exact Hg |]. intros i Hi. eexists.
    split; [now apply (nth_error_tabulated
              (fun i => put_value (INR (i + 1) * dt) (vol_at i)
                          (skip (i * block) g))) |].
    split; [apply put_value_nonneg |].
    now rewrite put_pricer_returns.
Qed.

Lemma put_override_vol_range (i : nat) :
  put_override_vol i ^ 2 <= float_max.
Proof.
  pose proof UncertaintyFacts.float_max_ge_1.
  unfold put_override_vol.
  destruct ((i =? 20)%nat || (i =? 21)%nat); lra.
Qed.

Lemma classical_cell_runs_witness :
  exists st,
    classical_scan put_pricer put_override_vol 40 (fun k => INR k)
      = Returned st /\
    length (c_results st) = 40%nat /\
    (forall k, c_rng st k = INR (40 * block + k)) /\
    (forall i, (i < 40)%nat ->
       exists price,
         nth_error (c_results st) i = Some price /\
         0 <= price /\
         fst (put_pricer (INR (i + 1) * dt) (put_override_vol i)
                (skip (i * block) (fun k => INR k)))
         = Returned price).
Proof.
  exact (proj1 (proj2 (classical_cell_runs put_override_vol 40
                         (fun k => INR k)
                         (fun i _ => put_override_vol_range i)))).
Defined.

(** X17: in the classical cells no day sees another day's draws.  If two
    runs of a cell start from generators that agree on the block of
    draws of day i + 1, they record the same price for that day,
    whatever the draws of the other days. *)
Theorem classical_day_reads_own_block
    (vol_at : nat -> R) (n i : nat) (g g' : rng) :
  (i < n)%nat ->
  (forall k, (k < block)%nat ->
             g (i * block + k)%nat = g' (i * block + k)%nat) ->
  let same := fun (pricer : R -> R -> rng -> outcome R * rng) =>
    exists st st',
      classical_scan pricer vol_at n g = Returned st /\
      classical_scan pricer vol_at n g' = Returned st' /\
      nth_error (c_results st) i = nth_error (c_results st') i in
  same call_pricer /\ same put_pricer.
Proof.
  intros Hi Hg same. subst same. cbv beta. split.
  - destruct (classical_scan_state call_pricer vol_at call_value
                call_pricer_returns call_value_reads_block n g)
      as (st & Hscan & _ & _ & Hr).
    destruct (classical_scan_state call_pricer vol_at call_value
                call_pricer_returns call_value_reads_block n g')
      as (st' & Hscan' & _ & _ & Hr').
    exists st, st'. split; [assumption | split; [assumption |]].
    rewrite Hr, Hr'.
    rewrite (nth_error_tabulated
               (fun i => call_value (INR (i + 1) * dt) (vol_at i)
                           (skip (i * block) g))),
      (nth_error_tabulated
         (fun i => call_value (INR (i + 1) * dt) (vol_at i)
                     (skip (i * block) g'))) by assumption.
    rewrite (call_value_reads_block (INR (i + 1) * dt) (vol_at i)
               (skip (i * block) g) (skip (i * block) g')).
    + reflexivity.
    + intros k Hk. unfold skip. apply Hg. exact Hk.
  - destruct (classical_scan_state put_pricer vol_at put_value
                put_pricer_returns put_value_reads_block n g)
      as (st & Hscan & _ & _ & Hr).
    destruct (classical_scan_state put_pricer vol_at put_value
                put_pricer_returns put_value_reads_block n g')
      as (st' & Hscan' & _ & _ & Hr').
    exists st, st'. split; [assumption | split; [assumption |]].
    rewrite Hr, Hr'.
    rewrite (nth_error_tabulated
               (fun i => put_value (INR (i + 1) * dt) (vol_at i)
                           (skip (i * block) g))),
      (nth_error_tabulated
         (fun i => put_value (INR (i + 1) * dt) (vol_at i)
                     (skip (i * block) g'))) by assumption.
    rewrite (put_value_reads_block (INR (i + 1) * dt) (vol_at i)
               (skip (i * block) g) (skip (i * block) g')).
    + reflexivity.
    + intros k Hk. unfold skip. apply Hg. exact Hk.
Qed.

(** A generator that delivers the draws of day 22 as [fun k => INR k]
    does, and -1 before and after them. *)
Lemma agrees_on_block_of_day_22 (k : nat) :
  (k < block)%nat ->
  INR (21 * block + k)
  = (if ((21 * block + k <? 21 * block)
         || (22 * block <=? 21 * block + k))%nat
     then -1 else INR (21 * block + k)).
Proof.
  intros Hk.
  destruct (Nat.ltb_spec (21 * block + k) (21 * block)) as [H1 | H1];
    [lia |].
  destruct (Nat.leb_spec (22 * block) (21 * block + k)) as [H2 | H2];
    [lia | reflexivity].
Qed.

Lemma differs_on_first_draw :
  INR 0 <> (if ((0 <? 21 * block) || (22 * block <=? 0))%nat
            then -1 else INR 0).
Proof.
  assert (Hb : (0 < 21 * block)%nat)
    by (unfold block, default_steps, default_N; lia).
  destruct (Nat.ltb_spec 0 (21 * block)) as [_ | H1]; [| lia].
  cbn [orb INR]. lra.
Qed.

Lemma classical_day_reads_own_block_witness :
  let g := fun k : nat => INR k in
  let g' := fun k : nat =>
    if ((k <? 21 * block) || (22 * block <=? k))%nat then -1 else INR k in
  g 0%nat <> g' 0%nat /\
  exists st st',
    classical_scan call_pricer override_vol 40 g = Returned st /\
    classical_scan call_pricer override_vol 40 g' = Returned st' /\
    nth_error (c_results st) 21 = nth_error (c_results st') 21.
Proof.
  intros g g'. split; [exact differs_on_first_draw |].
  exact (proj1 (classical_day_reads_own_block override_vol 40 21 g g'
                  ltac:(lia)
                  (fun k Hk => agrees_on_block_of_day_22 k Hk))).
Defined.

(** X18: the lines that close a classical cell.  After n >= 1 days the
    report raises nothing; the reported day lies between 1 and n, the
    reported value is that day's price, it is not negative, and no day
    of the scan, the last one included, has a higher price. *)
Theorem classical_report_returns
    (vol_at : nat -> R) (n : nat) (g : rng) :
  (0 < n)%nat ->
  let reports := fun (pricer : R -> R -> rng -> outcome R * rng) =>
    exists st k value,
      classical_scan pricer vol_at n g = Returned st /\
      report_classical Rltb (c_results st) = Returned (value, (k + 1)%nat) /\
      (k < n)%nat /\
      nth_error (c_results st) k = Some value /\
      0 <= value /\
      (forall i price, nth_error (c_results st) i = Some price ->
                       price <= value) in
  reports call_pricer /\ reports put_pricer.
Proof.
  intros Hn reports. subst reports. cbv beta. split.
  - destruct (classical_scan_state call_pricer vol_at call_value
                call_pricer_returns call_value_reads_block n g)
      as (st & Hscan & _ & _ & Hr).
    set (price := fun i => call_value (INR (i + 1) * dt) (vol_at i)
                             (skip (i * block) g)) in *.
    destruct (CellsFacts.report_on_days (fun i => (price i, (0, 0))) n Hn)
      as (k & Hk & _ & Hmax & _ & Hrep).
    cbn [fst] in Hmax, Hrep.
    exists st, k, (price k). rewrite Hr.
    split; [assumption | split; [assumption | split; [assumption |]]].
    split; [now apply (nth_error_tabulated price) |].
    split; [unfold price; cbv beta; apply call_value_nonneg |].
    intros i p Hp.
    assert (Hi : (i < length (map price (seq 0 n)))%nat)
      by (apply nth_error_Some; rewrite Hp; discriminate).
    rewrite length_map, length_seq in Hi.
    rewrite (nth_error_tabulated price) in Hp by assumption.
    apply some_inj in Hp. subst p. now apply Hmax.
  - destruct (classical_scan_state put_pricer vol_at put_value
                put_pricer_returns put_value_reads_block n g)
      as (st & Hscan & _ & _ & Hr).
    set (price := fun i => put_value (INR (i + 1) * dt) (vol_at i)
                             (skip (i * block) g)) in *.
    destruct (CellsFacts.report_on_days (fun i => (price i, (0, 0))) n Hn)
      as (k & Hk & _ & Hmax & _ & Hrep).
    cbn [fst] in Hmax, Hrep.
    exists st, k, (price k). rewrite Hr.
    split; [assumption | split; [assumption | split; [assumption |]]].
    split; [now apply (nth_error_tabulated price) |].
    split; [unfold price; cbv beta; apply put_value_nonneg |].
    intros i p Hp.
    assert (Hi : (i < length (map price (seq 0 n)))%nat)
      by (apply nth_error_Some; rewrite Hp; discriminate).
    rewrite length_map, length_seq in Hi.
    rewrite (nth_error_tabulated price) in Hp by assumption.
    apply some_inj in Hp. subst p. now apply Hmax.
Qed.

Lemma classical_report_returns_witness :
  exists st k value,
    classical_scan put_pricer put_override_vol 40 (fun k => INR k)
      = Returned st /\
    report_classical Rltb (c_results st) = Returned (value, (k + 1)%nat) /\
    (k < 40)%nat /\
    nth_error (c_results st) k = Some value /\
    0 <= value /\
    (forall i price, nth_error (c_results st) i = Some price ->
                     price <= value).
Proof.
  exact (proj2 (classical_report_returns put_override_vol 40
                  (fun k => INR k) (Nat.lt_0_succ 39))).
Defined.

End ClassicalFacts.

